(** * codemap: a shallow embedding of the graph store, the scanner walk,
      the watcher debounce, the LSP orchestrator and the JSON-RPC reader.

    Names follow the Go sources ([FindImpact], [DeleteNodesByFile],
    [PruneStaleFiles], [Scan], [ScanFile], [handleEvent], [Enrich], ...).
    SQL statements are modelled by their relational meaning over a store
    whose [nodes] table is a map keyed by the primary key [id]. *)

From Stdlib Require Import String Ascii ZArith List.
From stdpp Require Import base gmap sets list strings sorting.
Import ListNotations.

Open Scope string_scope.
#[global] Set Warnings "-register-all".

(** Results of fallible Go functions: a value or an error message. *)
Inductive res (A : Type) : Type :=
| Ok (a : A)
| Err (msg : string).
Arguments Ok {A} a.
Arguments Err {A} msg.

(** ** Data model ([graph.Node], [graph.Edge] and the [nodes] rows) *)

Record Node := mkNode {
  ID : string;
  Name : string;
  Kind : string;
  FilePath : string;
  LineStart : Z;
  LineEnd : Z;
  ColStart : Z;
  ColEnd : Z;
  SymbolURI : string
}.

(** A row of the [nodes] table, without its primary key [id]. *)
Record NodeRow := mkRow {
  r_name : string;
  r_kind : string;
  r_file_path : string;
  r_line_start : Z;
  r_line_end : Z;
  r_col_start : Z;
  r_col_end : Z;
  r_symbol_uri : string;
  r_created_at : Z
}.

Record Edge := mkEdge {
  SourceID : string;
  TargetID : string;
  Relation : string
}.

Definition edge_eq_dec : EqDecision Edge.
Proof. intros [a b c] [a' b' c']. unfold Decision. decide equality; apply String.string_dec. Defined.
#[global] Existing Instance edge_eq_dec.

(** The database handle: both tables, and whether SQLite enforces the
    declared foreign keys (the [foreign_keys] pragma of the connection). *)
Record Store := mkStore {
  nodes : gmap string NodeRow;
  edges : list Edge;
  foreign_keys : bool
}.

(** [INSERT INTO nodes ... VALUES (n.ID, ...)]: the row written for [n]. *)
Definition row_of (n : Node) (now : Z) : NodeRow :=
  mkRow (Name n) (Kind n) (FilePath n) (LineStart n) (LineEnd n)
        (ColStart n) (ColEnd n) (SymbolURI n) now.

(** [rows.Scan(&n.ID, &n.Name, ..., &n.SymbolURI)] on a row with key [k]. *)
Definition node_of (k : string) (r : NodeRow) : Node :=
  mkNode k (r_name r) (r_kind r) (r_file_path r) (r_line_start r)
         (r_line_end r) (r_col_start r) (r_col_end r) (r_symbol_uri r).

(** ** Opening the database ([db.New]) *)

Fixpoint split_on (c : ascii) (s : string) : list string :=
  match s with
  | EmptyString => [EmptyString]
  | String a s' =>
      if Ascii.eqb a c then EmptyString :: split_on c s'
      else match split_on c s' with
           | [] => [String a EmptyString]
           | w :: ws => String a w :: ws
           end
  end.

(** [fmt.Sprintf("file:%s?cache=shared&mode=rwc&_journal_mode=WAL", dbPath)] *)
Definition dsn_of (dbPath : string) : string :=
  "file:" ++ dbPath ++ "?cache=shared&mode=rwc&_journal_mode=WAL".

(** The query parameters of a DSN, as go-sqlite3 reads them: the part
    after the first ['?'], split at ['&'], each split at ['=']. *)
Definition dsn_params (dsn : string) : list (string * string) :=
  let query := match split_on "?"%char dsn with
               | _ :: rest => String.concat "?" rest
               | [] => ""
               end in
  map (fun kv => match split_on "="%char kv with
                 | k :: v :: _ => (k, v)
                 | [k] => (k, "")
                 | [] => ("", "")
                 end) (split_on "&"%char query).

Fixpoint param_lookup (k : string) (ps : list (string * string)) : option string :=
  match ps with
  | [] => None
  | (k', v) :: ps' => if String.eqb k k' then Some v else param_lookup k ps'
  end.

(** go-sqlite3 only issues [PRAGMA foreign_keys] when the DSN carries
    [_foreign_keys] (alias [_fk]); otherwise the connection keeps SQLite's
    compiled default, which is OFF. *)
Definition sqlite_default_foreign_keys : bool := false.

Definition fk_value (v : string) : option bool :=
  if existsb (String.eqb v) ["1"; "yes"; "true"; "on"] then Some true
  else if existsb (String.eqb v) ["0"; "no"; "false"; "off"] then Some false
  else None.

Definition foreign_keys_of_dsn (dsn : string) : bool :=
  let ps := dsn_params dsn in
  match param_lookup "_foreign_keys" ps with
  | Some v => default sqlite_default_foreign_keys (fk_value v)
  | None =>
      match param_lookup "_fk" ps with
      | Some v => default sqlite_default_foreign_keys (fk_value v)
      | None => sqlite_default_foreign_keys
      end
  end.

(** [db.New] on a fresh database file: the migrated schema has empty
    tables; the directory creation, ping and migration are taken to
    succeed. *)
Definition New (dbPath : string) : res Store :=
  if String.eqb dbPath "" then Err "database path is required"
  else Ok (mkStore ∅ [] (foreign_keys_of_dsn (dsn_of dbPath))).

(** ** Store operations ([graph.Store]) *)

(** [UpsertNode]: [INSERT ... ON CONFLICT(id) DO UPDATE SET ...,
    created_at = CURRENT_TIMESTAMP]. *)
Definition UpsertNode (now : Z) (n : Node) (s : Store) : Store :=
  mkStore (<[ID n := row_of n now]> (nodes s)) (edges s) (foreign_keys s).

(** [UpsertEdge]: [INSERT ... ON CONFLICT(source_id, target_id, relation)
    DO NOTHING]; with foreign keys enforced a dangling endpoint is a
    constraint failure. *)
Definition UpsertEdge (e : Edge) (s : Store) : res Store :=
  if foreign_keys s &&
     negb (bool_decide (is_Some (nodes s !! SourceID e)) &&
           bool_decide (is_Some (nodes s !! TargetID e)))
  then Err "FOREIGN KEY constraint failed"
  else if bool_decide (e ∈ edges s) then Ok s
  else Ok (mkStore (nodes s) (app (edges s) [e]) (foreign_keys s)).

(** [DeleteNodesByFile]: [DELETE FROM nodes WHERE file_path = ?].  The
    [ON DELETE CASCADE] clauses of [edges] act only when the connection
    enforces foreign keys. *)
Definition DeleteNodesByFile (filePath : string) (s : Store) : Store :=
  let doomed (k : string) : bool :=
    match nodes s !! k with
    | Some r => String.eqb (r_file_path r) filePath
    | None => false
    end in
  let kept := filter (fun kr => r_file_path kr.2 <> filePath) (nodes s) in
  let edges' :=
    if foreign_keys s
    then List.filter (fun e => negb (doomed (SourceID e) || doomed (TargetID e))) (edges s)
    else edges s in
  mkStore kept edges' (foreign_keys s).

(** [SELECT DISTINCT file_path FROM nodes]. *)
Definition db_files (s : Store) : list string :=
  remove_dups (map (fun kr => r_file_path kr.2) (map_to_list (nodes s))).

(** [PruneStaleFiles foundFilePaths]. *)
Definition PruneStaleFiles (foundFilePaths : list string) (s : Store) : Store :=
  let keep (p : string) : bool := bool_decide (p ∈ foundFilePaths) in
  fold_left (fun st file => if keep file then st else DeleteNodesByFile file st)
            (db_files s) s.

(** The file paths present in the [nodes] table. *)
Definition store_files (s : Store) : gset string :=
  list_to_set (map (fun kr => r_file_path kr.2) (map_to_list (nodes s))).

(** ** The impact query ([FindImpact]) *)

(** One round of the recursive member of the CTE:
    [SELECT e.source_id FROM edges e JOIN impacted i ON e.target_id = i.source_id]. *)
Definition dependents (E : list Edge) (S : gset string) : gset string :=
  list_to_set (map SourceID (List.filter (fun e => bool_decide (TargetID e ∈ S)) E)).

(** [WITH RECURSIVE impacted AS (base UNION recursive)]: the [UNION]
    discards rows already produced, and evaluation stops at the first
    round that adds nothing.  [fuel] bounds the number of rounds; [None]
    would mean the query had not finished within it. *)
Fixpoint cte_loop (E : list Edge) (fuel : nat) (S : gset string) : option (gset string) :=
  match fuel with
  | O => None
  | Datatypes.S f =>
      let S' := S ∪ dependents E S in
      if bool_decide (S' = S) then Some S else cte_loop E f S'
  end.

(** The [impacted] relation for one target: base case [WHERE target_id = ?]. *)
Definition impacted (E : list Edge) (targetID : string) : option (gset string) :=
  cte_loop E (length E + 1) (dependents E {[targetID]}).

(** [SELECT DISTINCT n.* FROM nodes n JOIN impacted i ON n.id = i.source_id]. *)
Definition impact_rows (s : Store) (T : gset string) : list Node :=
  map (fun kr => node_of kr.1 kr.2)
      (filter (fun kr => kr.1 ∈ T) (map_to_list (nodes s))).

(** [SELECT id FROM nodes WHERE name = ?]. *)
Definition target_ids (s : Store) (symbolName : string) : list string :=
  map fst (filter (fun kr => r_name kr.2 = symbolName) (map_to_list (nodes s))).

(** The loop over [targetIDs], filling [uniqueNodes[n.ID] = n]. *)
Fixpoint collect_impact (s : Store) (tids : list string) (uniqueNodes : gmap string Node)
  : res (gmap string Node) :=
  match tids with
  | [] => Ok uniqueNodes
  | t :: tl =>
      match impacted (edges s) t with
      | None => Err "recursive query did not terminate"
      | Some T =>
          collect_impact s tl
            (fold_left (fun m n => <[ID n := n]> m) (impact_rows s T) uniqueNodes)
      end
  end.

Definition FindImpact (s : Store) (symbolName : string) : res (list Node) :=
  match target_ids s symbolName with
  | [] => Ok []
  | tids =>
      match collect_impact s tids ∅ with
      | Ok m => Ok (map snd (map_to_list m))
      | Err e => Err e
      end
  end.

(** A nonempty path of edges [x -> ... -> y]. *)
Inductive reaches (E : list Edge) : string -> string -> Prop :=
| reaches_one e : In e E -> reaches E (SourceID e) (TargetID e)
| reaches_step e y : In e E -> reaches E (TargetID e) y -> reaches E (SourceID e) y.

(** [validFileList] of the index handler: the file paths of the batch,
    each once, in first-seen order. *)
Definition distinct_file_paths (ns : list Node) : list string :=
  fold_left (fun (acc : list string) n =>
               if bool_decide (FilePath n ∈ acc) then acc else app acc [FilePath n])
            ns [].

(** Upserting every node of a batch, one [UpsertNode] after the other. *)
Definition upsert_all (now : Z) (ns : list Node) (s : Store) : Store :=
  fold_left (fun st n => UpsertNode now n st) ns s.

(** Concrete stores. *)
Definition fn_row (name file : string) : NodeRow :=
  mkRow name "function_declaration" file 1 1 6 10 ("file://" ++ file) 0.

Definition chain_store : Store :=
  mkStore (list_to_map [("a", fn_row "A" "/w/a.go"); ("b", fn_row "B" "/w/b.go");
                        ("c", fn_row "C" "/w/c.go"); ("d", fn_row "D" "/w/d.go")])
          [mkEdge "a" "b" "references"; mkEdge "b" "c" "references";
           mkEdge "c" "d" "references"]
          false.

Definition two_targets_store : Store :=
  mkStore (list_to_map [("t1", fn_row "f" "/w/a.go"); ("t2", fn_row "f" "/w/b.go")])
          [mkEdge "t1" "t2" "references"]
          false.

Definition cycle_store : Store :=
  mkStore (list_to_map [("x", fn_row "g" "/w/x.go"); ("y", fn_row "h" "/w/y.go")])
          [mkEdge "x" "y" "references"; mkEdge "y" "x" "references"]
          false.

Definition node_at (id name file : string) (line : Z) : Node :=
  mkNode id name "function_declaration" file line line 6 (6 + Z.of_nat (String.length name))%Z
         ("file://" ++ file).

Definition helper_node : Node := node_at "idA" "Helper" "/w/a.go" 3.
Definition caller_node : Node := node_at "idB" "Caller" "/w/b.go" 5.

(** A store still holding a node of a file that no longer exists. *)
Definition stale_store : Store :=
  mkStore (list_to_map [("idOld", fn_row "Gone" "/w/old.go")]) [] false.

(** ** Scanner ([internal/scanner/scanner.go] and its revision in
       [unnamed/part_002]) *)

(** Modelled from the spec: [util.GenerateNodeID] is not in the sources;
    the spec only says the id is a deterministic fingerprint of the file
    and the name.  This stand-in keeps the pair. *)
Definition GenerateNodeID (path name : string) : string := path ++ "#" ++ name.

(** Modelled from the spec: [util.PathToURI] is not in the sources; the
    spec describes it as the [file://] URI of the file. *)
Definition PathToURI (path : string) : string := "file://" ++ path.

(** A capture reported by tree-sitter: the capture name of the query
    ([query.CaptureNames()[c.Index]]), the captured text, the kind of the
    captured node's parent, and its 0-based positions. *)
Record Capture := mkCapture {
  cap_name : string;
  cap_text : string;
  cap_parent_kind : option string;
  cap_start_row : Z;
  cap_start_col : Z;
  cap_end_row : Z;
  cap_end_col : Z
}.

(** What tree-sitter yields for a parsed file: the matches of
    [qc.Matches] (each a list of captures) and the items of
    [qc.Captures] (a match with the index of one of its captures). *)
Record Parsed := mkParsed {
  matches : list (list Capture);
  capture_stream : list (list Capture * nat)
}.

(** A file on disk: [None] when [os.ReadFile] fails; [Some None] when the
    parser returns no tree. *)
Definition FileContent := option (option Parsed).

Inductive Entry :=
| FileEntry (name : string) (content : FileContent)
| DirEntry (name : string) (children : list Entry).

Definition entry_name (e : Entry) : string :=
  match e with FileEntry n _ => n | DirEntry n _ => n end.

Definition entry_is_dir (e : Entry) : bool :=
  match e with FileEntry _ _ => false | DirEntry _ _ => true end.

(** [filepath.Ext] of a base name: the suffix from the last ['.'], or "". *)
Fixpoint last_dot_suffix (s : string) : option string :=
  match s with
  | EmptyString => None
  | String c s' =>
      match last_dot_suffix s' with
      | Some x => Some x
      | None => if Ascii.eqb c "."%char then Some s else None
      end
  end.

Definition Ext (name : string) : string := default "" (last_dot_suffix name).

(** [strings.TrimPrefix(s, ".")] *)
Definition trim_dot (s : string) : string :=
  match s with
  | String c s' => if Ascii.eqb c "."%char then s' else s
  | EmptyString => EmptyString
  end.

Definition getLangKey (ext : string) (jsx_tsx : bool) : string :=
  if String.eqb ext "go" then "go"
  else if String.eqb ext "py" then "python"
  else if String.eqb ext "js" then "javascript"
  else if jsx_tsx && String.eqb ext "jsx" then "javascript"
  else if String.eqb ext "ts" then "typescript"
  else if jsx_tsx && String.eqb ext "tsx" then "typescript"
  else if String.eqb ext "lua" then "lua"
  else "".

(** Modelled from the spec: [scanner.Queries] (queries.go) is not in the
    sources; the spec's grammar-query registry has one query per
    language, keyed as [getLangKey] keys them (README: Go, Python,
    JavaScript, TypeScript, Lua). *)
Definition Queries : list string := ["go"; "python"; "javascript"; "typescript"; "lua"].

(** The scanner: the extensions with a registered parser and those with
    a compiled query. *)
Record Scanner := mkScanner {
  languages : list string;
  queries : list string
}.

(** [scanner.New]: register the parsers, then compile the query of each
    extension whose language key has one. *)
Definition NewScanner (langs : list string) (jsx_tsx : bool) : Scanner :=
  mkScanner langs
    (List.filter (fun ext => bool_decide (getLangKey ext jsx_tsx ∈ Queries)) langs).

(** [internal/scanner/scanner.go]: [go], [py], [js], [ts], [lua]. *)
Definition scanner_go_New : Scanner := NewScanner ["go"; "py"; "js"; "ts"; "lua"] false.

(** [unnamed/part_002]: also [jsx] and [tsx]. *)
Definition part_002_New : Scanner :=
  NewScanner ["go"; "py"; "js"; "jsx"; "ts"; "tsx"; "lua"] true.

Definition has (l : list string) (x : string) : bool := bool_decide (x ∈ l).

(** The node built from the [@name] capture of a match ([Scan] and the
    [ScanFile] of part_002). *)
Definition node_of_name_capture (idPath path : string) (c : Capture) (uri : string) : Node :=
  mkNode (GenerateNodeID idPath (cap_text c)) (cap_text c)
         (default "symbol" (cap_parent_kind c)) path
         (cap_start_row c + 1) (cap_end_row c + 1)
         (cap_start_col c + 1) (cap_end_col c + 1) uri.

(** The loop over [match.Captures]: the last capture named "name". *)
Definition name_capture (m : list Capture) : option Capture :=
  fold_left (fun acc c => if String.eqb (cap_name c) "name" then Some c else acc) m None.

Definition nodes_of_matches (idPath path uri : string) (ms : list (list Capture)) : list Node :=
  flat_map (fun m => match name_capture m with
                     | Some c => [node_of_name_capture idPath path c uri]
                     | None => []
                     end) ms.

(** [ScanFile] of [internal/scanner/scanner.go] (captures iterator, kind
    = capture name, id from the full path). *)
Definition ScanFile_v1 (sc : Scanner) (fs : string -> FileContent) (path name : string)
  : res (list Node) :=
  let ext := trim_dot (Ext name) in
  if negb (has (languages sc) ext) then Err ("unsupported file extension: " ++ ext)
  else if negb (has (queries sc) ext) then Err ("no query for extension: " ++ ext)
  else match fs path with
       | None => Err "failed to read file"
       | Some None => Err "failed to parse file"
       | Some (Some pr) =>
           Ok (flat_map (fun '(m, _) =>
                 map (fun c => mkNode (GenerateNodeID path (cap_text c)) (cap_text c)
                                      (cap_name c) path
                                      (cap_start_row c + 1) (cap_end_row c + 1)
                                      (cap_start_col c + 1) (cap_end_col c + 1)
                                      (PathToURI path)) m)
               (capture_stream pr))
       end.

(** [ScanFile] of part_002 (matches, the [@name] capture, id from the
    path relative to the scanned root, here [relPath]). *)
Definition ScanFile_v2 (sc : Scanner) (fs : string -> FileContent) (relPath path name : string)
  : res (list Node) :=
  let ext := trim_dot (Ext name) in
  if negb (has (languages sc) ext) then Err ("unsupported file extension: " ++ ext)
  else if negb (has (queries sc) ext) then Err ("no query for extension: " ++ ext)
  else match fs path with
       | None => Err "failed to read file"
       | Some None => Err "failed to parse file"
       | Some (Some pr) => Ok (nodes_of_matches relPath path (PathToURI path) (matches pr))
       end.

Definition starts_with_dot (s : string) : bool :=
  match s with String c _ => Ascii.eqb c "."%char | EmptyString => false end.

(** The [filepath.WalkDir] callback of [Scan], for a directory: [true]
    when it returns [nil] (descend), [false] for [SkipDir]. *)
Definition scan_enters_dir (ign : option (string -> bool)) (name relPath : string) : bool :=
  if starts_with_dot name && negb (String.eqb name ".") && negb (String.eqb name ".gitignore")
  then false
  else if String.eqb name "node_modules" || String.eqb name "vendor" || String.eqb name "zig-out"
  then false
  else match ign with
       | Some matches => negb (matches relPath)
       | None => true
       end.

(** The callback for a file: the nodes it contributes. *)
Definition scan_visit_file (sc : Scanner) (ign : option (string -> bool))
    (path relPath name : string) (content : FileContent) : list Node :=
  if starts_with_dot name && negb (String.eqb name ".") && negb (String.eqb name ".gitignore")
  then []
  else if (match ign with Some matches => matches relPath | None => false end) then []
  else
    let ext := trim_dot (Ext name) in
    if negb (has (languages sc) ext) then []
    else if negb (has (queries sc) ext) then []
    else match content with
         | None => []
         | Some None => []
         | Some (Some pr) => nodes_of_matches relPath path "" (matches pr)
         end.

(** [filepath.Join] and [filepath.Rel] for the paths the walk builds. *)
Definition join (dir name : string) : string := dir ++ "/" ++ name.
Definition join_rel (rel name : string) : string :=
  if String.eqb rel "." then name else rel ++ "/" ++ name.

(** [filepath.WalkDir] with the callback of [Scan]; the children of a
    directory are listed in the order [os.ReadDir] returns them. *)
Fixpoint walk (sc : Scanner) (ign : option (string -> bool)) (path relPath : string) (e : Entry)
  : list Node :=
  match e with
  | FileEntry name content => scan_visit_file sc ign path relPath name content
  | DirEntry name children =>
      if scan_enters_dir ign name relPath then
        (fix walk_children (cs : list Entry) : list Node :=
           match cs with
           | [] => []
           | c :: cs' =>
               app (walk sc ign (join path (entry_name c)) (join_rel relPath (entry_name c)) c)
                   (walk_children cs')
           end) children
      else []
  end.

(** [Scan ctx root]: the walk from [root], whose entry is the root
    directory itself ([d.Name()] is the base name of [root]); the
    [.gitignore] of the root compiled as [ign].  No walk error occurs in
    this model, so [Scan] returns [Ok]. *)
Definition Scan (sc : Scanner) (ign : option (string -> bool)) (root : string) (tree : Entry)
  : res (list Node) :=
  Ok (walk sc ign root "." tree).

(** A parsed file with one definition [f] (0-based row 0, columns 4-5). *)
Definition one_def (kind : string) : FileContent :=
  let c := mkCapture "name" "f" (Some kind) 0 4 0 5 in
  Some (Some (mkParsed [[c]] [([c], 0%nat)])).

(** A workspace [/w] whose only source file sits in [__pycache__]. *)
Definition pycache_tree : Entry :=
  DirEntry "w" [DirEntry "__pycache__" [FileEntry "m.py" (one_def "function_definition")]].

(** A workspace [/w] holding one TSX file. *)
Definition tsx_tree : Entry := DirEntry "w" [FileEntry "App.tsx" (one_def "function_declaration")].

Definition tsx_fs (path : string) : FileContent :=
  if String.eqb path "/w/App.tsx" then one_def "function_declaration" else None.

(** ** Watcher ([internal/watcher/watcher.go]) *)

(** [fsnotify.Op] bits. *)
Definition OpCreate : Z := 1.
Definition OpWrite : Z := 2.
Definition OpRemove : Z := 4.
Definition OpRename : Z := 8.
Definition OpChmod : Z := 16.

Definition has_op (op bit : Z) : bool := negb (Z.eqb (Z.land op bit) 0).

Record Event := mkEvent { ev_name : string; ev_op : Z }.

(** What the watcher does besides its pending map, in order. *)
Inductive Action :=
| Reindex (path : string)
| DeleteFile (path : string)
| WatchTree (path : string).

Definition action_eq_dec : EqDecision Action.
Proof. intros a b. unfold Decision. decide equality; apply String.string_dec. Defined.
#[global] Existing Instance action_eq_dec.

(** The watcher's state: [pendingFiles] (path to deadline, in
    milliseconds) and the actions it has taken. *)
Record Watcher := mkWatcher {
  pendingFiles : gmap string Z;
  actions : list Action
}.

(** The environment of a watcher: the watched root, the compiled root
    [.gitignore] ([MatchesPath]) if there is one, and [os.Stat]'s
    directory test. *)
Record WatchEnv := mkWatchEnv {
  w_root : string;
  w_gitignore : option (string -> bool);
  w_is_dir : string -> bool
}.

Definition debounceTime : Z := 500.

(** [filepath.Rel(root, name)] for names under [root]: the watcher only
    registers directories under its root, so its events name such
    paths; other names are left out ([None]). *)
Definition rel_path (root name : string) : option string :=
  if String.eqb name root then Some "."
  else if String.prefix (root ++ "/") name
  then Some (substring (String.length root + 1) (String.length name - String.length root - 1) name)
  else None.

(** [filepath.Base] of a path without a trailing slash. *)
Fixpoint Base (path : string) : string :=
  match path with
  | EmptyString => EmptyString
  | String c rest =>
      if Ascii.eqb c "/"%char then Base rest
      else match rest with
           | EmptyString => String c EmptyString
           | _ => let b := Base rest in
                  if String.eqb b rest then path else b
           end
  end.

Definition lower_ascii (c : ascii) : ascii :=
  let n := nat_of_ascii c in
  if (Nat.leb 65 n && Nat.leb n 90)%bool then ascii_of_nat (n + 32)%nat else c.

Fixpoint ToLower (s : string) : string :=
  match s with
  | EmptyString => EmptyString
  | String c s' => String (lower_ascii c) (ToLower s')
  end.

(** [isSourceFile]: the lower-cased extension is a supported one. *)
Definition isSourceFile (path : string) : bool :=
  has [".go"; ".py"; ".js"; ".ts"; ".tsx"; ".jsx"; ".lua"] (ToLower (Ext (Base path))).

(** The directory filter of [addDirectoriesRecursively]: [true] when
    the directory is watched and descended. *)
Definition watcher_enters_dir (ign : option (string -> bool)) (name relPath : string) : bool :=
  if starts_with_dot name && negb (String.eqb name ".") then false
  else if String.eqb name "node_modules" || String.eqb name "vendor" || String.eqb name "__pycache__"
  then false
  else match ign with
       | Some matches => negb (matches relPath)
       | None => true
       end.

(** [debounceFile]: [pendingFiles[path] = time.Now().Add(debounceTime)]. *)
Definition debounceFile (now : Z) (path : string) (w : Watcher) : Watcher :=
  mkWatcher (<[path := (now + debounceTime)%Z]> (pendingFiles w)) (actions w).

Definition log_action (a : Action) (w : Watcher) : Watcher :=
  mkWatcher (pendingFiles w) (app (actions w) [a]).

(** [handleEvent] at time [now]. *)
Definition handleEvent (env : WatchEnv) (now : Z) (ev : Event) (w : Watcher) : Watcher :=
  match rel_path (w_root env) (ev_name ev) with
  | None => w
  | Some relPath =>
      if match w_gitignore env with Some m => m relPath | None => false end then w
      else if negb (isSourceFile (ev_name ev)) then
        if has_op (ev_op ev) OpCreate && w_is_dir env (ev_name ev)
        then log_action (WatchTree (ev_name ev)) w
        else w
      else if has_op (ev_op ev) OpWrite then debounceFile now (ev_name ev) w
      else if has_op (ev_op ev) OpCreate then debounceFile now (ev_name ev) w
      else if has_op (ev_op ev) OpRemove then log_action (DeleteFile (ev_name ev)) w
      else if has_op (ev_op ev) OpRename then log_action (DeleteFile (ev_name ev)) w
      else w
  end.

(** [processPendingFiles] at time [now]: the entries whose deadline is
    before [now] ([now.After(deadline)]) leave the map, then each is
    re-indexed. *)
Definition ready_files (now : Z) (pending : gmap string Z) : list string :=
  map fst (filter (fun kd => (kd.2 < now)%Z) (map_to_list pending)).

Definition processPendingFiles (now : Z) (w : Watcher) : Watcher :=
  mkWatcher (filter (fun kd => ~ (kd.2 < now)%Z) (pendingFiles w))
            (app (actions w) (map Reindex (ready_files now (pendingFiles w)))).

(** The two goroutines' steps, interleaved: an event handled at a time,
    or a tick of the 100 ms ticker. *)
Inductive Input :=
| EvIn (ev : Event) (t : Z)
| TickIn (t : Z).

Definition step (env : WatchEnv) (w : Watcher) (i : Input) : Watcher :=
  match i with
  | EvIn ev t => handleEvent env t ev w
  | TickIn t => processPendingFiles t w
  end.

Definition run (env : WatchEnv) (inputs : list Input) (w : Watcher) : Watcher :=
  fold_left (step env) inputs w.

Definition reindex_count (p : string) (w : Watcher) : nat :=
  length (List.filter (fun a => bool_decide (a = Reindex p)) (actions w)).

(** A workspace [/w] whose [.gitignore] lists [gen.go]. *)
Definition gen_env : WatchEnv :=
  mkWatchEnv "/w" (Some (fun rel => String.eqb rel "gen.go")) (fun _ => false).

(** An event path the watcher handles as a source file: under the root,
    not matched by the root [.gitignore], with a supported extension. *)
Definition watched_source (env : WatchEnv) (p : string) : bool :=
  match rel_path (w_root env) p with
  | Some relPath =>
      negb (match w_gitignore env with Some m => m relPath | None => false end)
      && isSourceFile p
  | None => false
  end.

Definition write_or_create (op : Z) : bool := has_op op OpWrite || has_op op OpCreate.

(** An input of a burst that starts at [t1]: a Write or Create event on
    [p] before [t1 + 500], or a tick no later than [t1 + 500]. *)
Definition burst_input (p : string) (t1 : Z) (i : Input) : Prop :=
  match i with
  | EvIn ev t => ev_name ev = p /\ write_or_create (ev_op ev) = true /\ (t1 <= t < t1 + 500)%Z
  | TickIn t => (t <= t1 + 500)%Z
  end.

Definition is_tick (i : Input) : Prop :=
  match i with TickIn _ => True | EvIn _ _ => False end.

(** States of [p] along a burst that starts at [t1], [c0] being the
    number of times [p] was re-indexed before: during the burst [p] is
    pending with a deadline in [[t1 + 500, t1 + 1000)] and has not been
    re-indexed. *)
Definition in_burst (p : string) (t1 : Z) (c0 : nat) (w : Watcher) : Prop :=
  (exists d, pendingFiles w !! p = Some d /\ (t1 + 500 <= d < t1 + 1000)%Z)
  /\ reindex_count p w = c0.

(** After the burst [p] is either still pending, or re-indexed once. *)
Definition waiting (p : string) (t1 : Z) (c0 : nat) (w : Watcher) : Prop :=
  (exists d, pendingFiles w !! p = Some d /\ (d < t1 + 1000)%Z) /\ reindex_count p w = c0.

Definition flushed (p : string) (c0 : nat) (w : Watcher) : Prop :=
  pendingFiles w !! p = None /\ reindex_count p w = S c0.

(** ** LSP enrichment ([internal/lsp/lsp.go]) *)

Record ServiceConfig := mkServiceConfig {
  GoPath : string; PythonPath : string; TypeScriptPath : string;
  LuaPath : string; ZigPath : string
}.

Definition is_space (c : ascii) : bool :=
  has [" "; String (ascii_of_nat 9) ""; String (ascii_of_nat 10) ""; String (ascii_of_nat 11) "";
       String (ascii_of_nat 12) ""; String (ascii_of_nat 13) ""] (String c "").

Fixpoint trim_left (s : string) : string :=
  match s with
  | String c s' => if is_space c then trim_left s' else s
  | EmptyString => EmptyString
  end.

Fixpoint rev_string (s : string) : string :=
  match s with
  | String c s' => rev_string s' ++ String c ""
  | EmptyString => EmptyString
  end.

(** [strings.TrimSpace] on ASCII white space. *)
Definition TrimSpace (s : string) : string := rev_string (trim_left (rev_string (trim_left s))).

(** [len(path) > k && path[len(path)-k:] == suf], [k] the length of [suf]. *)
Definition ends_with (suf path : string) : bool :=
  Nat.ltb (String.length suf) (String.length path)
  && String.eqb (substring (String.length path - String.length suf) (String.length suf) path) suf.

Definition getLang (path : string) : string :=
  if ends_with ".go" path then "go"
  else if ends_with ".py" path then "python"
  else if ends_with ".js" path then "javascript"
  else if ends_with ".ts" path then "typescript"
  else if ends_with ".tsx" path then "typescript"
  else if ends_with ".jsx" path then "javascript"
  else if ends_with ".lua" path then "lua"
  else if ends_with ".zig" path then "zig"
  else "".

(** The command path of [getLanguageServerCommand] (its arguments play
    no part here). *)
Definition getLanguageServerCommand (cfg : ServiceConfig) (lang : string) : string :=
  let pick custom default := if String.eqb (TrimSpace custom) "" then default else TrimSpace custom in
  if String.eqb lang "go" then pick (GoPath cfg) "gopls"
  else if String.eqb lang "python" then pick (PythonPath cfg) "pyright-langserver"
  else if String.eqb lang "javascript" || String.eqb lang "typescript"
  then pick (TypeScriptPath cfg) "typescript-language-server"
  else if String.eqb lang "lua" then pick (LuaPath cfg) "lua-language-server"
  else if String.eqb lang "zig" then pick (ZigPath cfg) "zls"
  else "".

Definition getLanguageServerInstallInstructions (lang : string) : string :=
  if String.eqb lang "go" then "go install golang.org/x/tools/gopls@latest"
  else if String.eqb lang "python" then "pip install pyright"
  else if String.eqb lang "javascript" || String.eqb lang "typescript"
  then "npm install -g typescript-language-server typescript"
  else if String.eqb lang "lua"
  then "brew install lua-language-server  # or download from github.com/LuaLS/lua-language-server"
  else if String.eqb lang "zig" then "brew install zls  # or build from github.com/zigtools/zls"
  else "".

Definition isDefinitionKind (kind : string) : bool :=
  has ["function_declaration"; "method_declaration"; "method_definition"; "function_definition";
       "class_definition"; "class_declaration"; "interface_declaration"; "type_definition"] kind.

Definition isInterfaceKind (kind : string) : bool :=
  String.eqb kind "interface_declaration" || String.eqb kind "protocol_declaration".

(** [detectRequiredLanguages]: the languages of the batch, each once
    (the Go map's iteration order is taken to be first appearance). *)
Definition detect_step (langSet : list string) (n : Node) : list string :=
  let lang := getLang (FilePath n) in
  if String.eqb lang "" || has langSet lang then langSet else app langSet [lang].

Definition detectRequiredLanguages (nodes : list Node) : list string :=
  fold_left detect_step nodes [].

(** The error of [validateLanguageServers], before formatting. *)
Record MissingServers := mkMissingServers {
  missing : list string;
  instructions : list string;
  firstCmd : string
}.

Definition nl : string := String (ascii_of_nat 10) "".

(** The text of that error ([%v] of a string slice is the elements
    between brackets, separated by spaces; the source's leading
    non-ASCII glyph is left out). *)
Definition missing_message (m : MissingServers) : string :=
  "Language server(s) not found: [" ++ String.concat " " (missing m) ++ "]" ++ nl ++ nl
  ++ "CodeFinder requires LSP servers for dependency analysis." ++ nl
  ++ "Without them, find_impact tool will not work." ++ nl ++ nl
  ++ "Install missing servers:" ++ nl ++ String.concat nl (instructions m) ++ nl ++ nl
  ++ "After installation, verify with: which " ++ firstCmd m.

(** One iteration of the loop of [validateLanguageServers] over the
    required languages, with the [missing] and [instructions] slices. *)
Definition validate_step (cfg : ServiceConfig) (lookPath : string -> bool)
  (acc : list string * list string) (lang : string) : list string * list string :=
  let '(miss, instrs) := acc in
  let cmdPath := getLanguageServerCommand cfg lang in
  if String.eqb cmdPath "" then (miss, instrs)
  else if lookPath cmdPath then (miss, instrs)
  else let instruction := getLanguageServerInstallInstructions lang in
       (app miss [lang],
        if String.eqb instruction "" then instrs
        else app instrs ["  " ++ lang ++ ": " ++ instruction]).

Definition validateLanguageServers (cfg : ServiceConfig) (lookPath : string -> bool)
  (requiredLangs : list string) : option MissingServers :=
  let '(miss, instrs) := fold_left (validate_step cfg lookPath) requiredLangs ([], []) in
  match miss with
  | [] => None
  | m0 :: _ =>
      let c := getLanguageServerCommand cfg m0 in
      Some (mkMissingServers miss instrs (if String.eqb c "" then "gopls" else c))
  end.

Inductive EnrichError :=
| ErrMissingServers (m : MissingServers)
| ErrNoServerStarted.

Definition enrich_error_message (e : EnrichError) : string :=
  match e with
  | ErrMissingServers m => missing_message m
  | ErrNoServerStarted => "failed to start any language servers"
  end.

Record Location := mkLocation { loc_uri : string; loc_line : Z; loc_char : Z }.

(** How [StartClient] ends for a language: the process does not start;
    it starts (and is registered) but [initialize] fails; or it
    starts. *)
Inductive StartOutcome := StartFails | InitFails | Started.

(** The outside world Enrich talks to: the configuration, [exec.LookPath],
    the language-server processes, [os.ReadFile], [didOpen], and the
    answers to [textDocument/references] and
    [textDocument/implementation] (by document URI and 0-based
    position; [None] for an error). *)
Record LspEnv := mkLspEnv {
  config : ServiceConfig;
  lookPath : string -> bool;
  start_outcome : string -> StartOutcome;
  readFile : string -> option string;
  didOpen_ok : string -> bool;
  references : string -> Z -> Z -> option (list Location);
  implementations : string -> Z -> Z -> option (list Location)
}.

(** Messages the service sends to its language servers, in order. *)
Inductive LspMsg :=
| MsgDidOpen (uri : string)
| MsgDidClose (uri : string).

(** Everything Enrich may touch: the graph store it resolves locations
    against, the service's client map ([s.clients], by language) and the
    messages sent. *)
Record LspWorld := mkLspWorld {
  db : Store;
  clients : list string;
  sent : list LspMsg
}.

(** Modelled from the spec: [Store.FindNode], the resolver [main] hands
    to Enrich, is not in the sources. The spec's resolver returns the
    innermost stored node of the file whose line range encloses the
    point; the selection loop is the one of the repository's test
    resolver ([MockNodeResolver.FindNode]), run over the stored rows. *)
Definition find_step (path : string) (line : Z) (best : option Node) (kr : string * NodeRow)
  : option Node :=
  let n := node_of kr.1 kr.2 in
  if String.eqb (FilePath n) path && Z.leb (LineStart n) line && Z.leb line (LineEnd n) then
    match best with
    | None => Some n
    | Some b => if Z.leb (LineStart b) (LineStart n) && Z.leb (LineEnd n) (LineEnd b)
                then Some n else best
    end
  else best.

Definition FindNode (s : Store) (path : string) (line col : Z) : res (option Node) :=
  Ok (fold_left (find_step path line) (map_to_list (nodes s)) None).

(** Modelled from the spec: [util.URIToPath] is not in the sources; it
    undoes [PathToURI]. *)
Definition URIToPath (uri : string) : string :=
  if String.prefix "file://" uri then substring 7 (String.length uri - 7) uri else uri.

(** [StartClient]: nothing to do for a language that has a client; a
    client whose process started is registered even if [initialize]
    then fails. *)
Definition StartClient (env : LspEnv) (lang : string) (w : LspWorld) : bool * LspWorld :=
  if has (clients w) lang then (true, w)
  else match start_outcome env lang with
       | StartFails => (false, w)
       | InitFails => (false, mkLspWorld (db w) (app (clients w) [lang]) (sent w))
       | Started => (true, mkLspWorld (db w) (app (clients w) [lang]) (sent w))
       end.

(** [detectAndStartLanguageServers]: its language set is built by the
    same loop as [detectRequiredLanguages]. *)
Definition start_step (env : LspEnv) (acc : list string * LspWorld) (lang : string)
  : list string * LspWorld :=
  let '(started, w) := acc in
  if String.eqb (getLanguageServerCommand (config env) lang) "" then (started, w)
  else let '(ok, w') := StartClient env lang w in
       (if ok then app started [lang] else started, w').

Definition detectAndStartLanguageServers (env : LspEnv) (ns : list Node) (w : LspWorld)
  : list string * LspWorld :=
  fold_left (start_step env) (detectRequiredLanguages ns) ([], w).

(** The loop of [findReferenceEdges] / [findImplementationEdges] over the
    returned locations. *)
Definition resolve_step (s : Store) (n : Node) (relation : string) (edges : list Edge) (loc : Location)
  : list Edge :=
  match FindNode s (URIToPath (loc_uri loc)) (loc_line loc + 1) (loc_char loc + 1) with
  | Ok (Some src) =>
      if String.eqb (ID src) (ID n) then edges
      else app edges [mkEdge (ID src) (ID n) relation]
  | _ => edges
  end.

Definition resolve_edges (s : Store) (n : Node) (relation : string)
  (locs : option (list Location)) : list Edge :=
  match locs with
  | None => []
  | Some ls => fold_left (resolve_step s n relation) ls []
  end.

Definition findReferenceEdges (env : LspEnv) (s : Store) (n : Node) : list Edge :=
  resolve_edges s n "references"
    (references env (PathToURI (FilePath n)) (LineStart n - 1) (ColStart n - 1)).

Definition findImplementationEdges (env : LspEnv) (s : Store) (n : Node) : list Edge :=
  resolve_edges s n "implements"
    (implementations env (PathToURI (FilePath n)) (LineStart n - 1) (ColStart n - 1)).

(** The workers' state: the documents opened so far ([openedDocs]), the
    world, and the edges collected from [edgeChan]. *)
Record WorkState := mkWorkState { opened : list string; world : LspWorld; collected : list Edge }.

(** One worker iteration on a node. The workers run concurrently; this
    is the run that takes the nodes in order ([openedDocs] is guarded by
    [docsMu]). *)
Definition enrich_node (env : LspEnv) (st : WorkState) (n : Node) : WorkState :=
  let w := world st in
  let lang := getLang (FilePath n) in
  if negb (has (clients w) lang) then st
  else
    let uri := PathToURI (FilePath n) in
    let st' :=
      if has (opened st) uri then Some st
      else match readFile env (FilePath n) with
           | None => None
           | Some _ =>
               if didOpen_ok env uri
               then Some (mkWorkState (app (opened st) [uri])
                            (mkLspWorld (db w) (clients w) (app (sent w) [MsgDidOpen uri]))
                            (collected st))
               else None
           end in
    match st' with
    | None => st
    | Some st' =>
        if String.eqb (Name n) "" || negb (isDefinitionKind (Kind n)) then st'
        else
          let nodeEdges := app (findReferenceEdges env (db w) n)
                               (if isInterfaceKind (Kind n) then findImplementationEdges env (db w) n else []) in
          mkWorkState (opened st') (world st') (app (collected st') nodeEdges)
    end.

(** [Enrich]: the edges and the error it returns, and the world after
    the call (the deferred [DidClose] of every opened document
    included). *)
Definition Enrich (env : LspEnv) (ns : list Node) (w : LspWorld)
  : (list Edge * option EnrichError) * LspWorld :=
  let requiredLangs := detectRequiredLanguages ns in
  match requiredLangs with
  | [] => (([], None), w)
  | _ =>
      match validateLanguageServers (config env) (lookPath env) requiredLangs with
      | Some m => (([], Some (ErrMissingServers m)), w)
      | None =>
          let '(langServers, w1) := detectAndStartLanguageServers env ns w in
          match langServers with
          | [] => (([], Some ErrNoServerStarted), w1)
          | _ =>
              let st := fold_left (enrich_node env) ns (mkWorkState [] w1 []) in
              let w2 := world st in
              ((collected st, None),
               mkLspWorld (db w2) (clients w2) (app (sent w2) (map MsgDidClose (opened st))))
          end
      end
  end.

(** [x] occurs in [s]. *)
Definition substring_of (x s : string) : Prop := exists a b, s = a ++ x ++ b.

(** A machine with no language server on its [PATH], and an empty world. *)
Definition no_servers_env : LspEnv :=
  mkLspEnv (mkServiceConfig "" "" "" "" "") (fun _ => false) (fun _ => Started)
           (fun _ => Some "") (fun _ => true) (fun _ _ _ => None) (fun _ _ _ => None).

Definition empty_world : LspWorld := mkLspWorld (mkStore ∅ [] false) [] [].

(** ** The JSON-RPC client's reader and calls *)

(** The error [ReadMessage] returns: [io.EOF] itself, or another error
    with its [Error()] text. *)
Inductive ReadErr :=
| EOF
| ReadFailure (msg : string).

(** [strings.Contains]. *)
Fixpoint Contains (s sub : string) : bool :=
  String.prefix sub s || match s with EmptyString => false | String _ s' => Contains s' sub end.

(** The test of [readLoop]: [err != io.EOF && !strings.Contains(err.Error(), "closed")]. *)
Definition publishes (e : ReadErr) : bool :=
  match e with
  | EOF => false
  | ReadFailure msg => negb (Contains msg "closed")
  end.

(** A client as far as its reader goes: the one-slot [errChan] and
    whether [readLoop] is still running. *)
Record LspClient := mkLspClient { errChan : option ReadErr; reading : bool }.

(** [readLoop] when [ReadMessage] fails: a non-blocking send of the
    error when the test holds, then [return]. *)
Definition readLoop_error (e : ReadErr) (c : LspClient) : LspClient :=
  mkLspClient
    (if publishes e then match errChan c with None => Some e | Some e0 => Some e0 end
     else errChan c)
    false.

Inductive CallResult :=
| CallWriteErr (msg : string)
| CallServerErr (e : ReadErr)
| CallTimeout.

(** The error text of a failed call. *)
Definition call_error_message (r : CallResult) : string :=
  match r with
  | CallWriteErr msg => msg
  | CallServerErr EOF => "LSP server error: EOF"
  | CallServerErr (ReadFailure msg) => "LSP server error: " ++ msg
  | CallTimeout => "LSP call timeout: context deadline exceeded"
  end.

(** [CallWithContext] once the reader has returned, [write] being the
    error of [WriteMessage] if any. No response can reach the pending
    channel any more, so the [select] takes [errChan] when it holds an
    error and otherwise waits for the deadline of [ensureTimeout]. *)
Definition call_after_reader (write : option string) (c : LspClient) : CallResult * LspClient :=
  match write with
  | Some msg => (CallWriteErr msg, c)
  | None =>
      match errChan c with
      | Some e => (CallServerErr e, mkLspClient None (reading c))
      | None => (CallTimeout, c)
      end
  end.

Fixpoint calls_after_reader (writes : list (option string)) (c : LspClient) : list CallResult :=
  match writes with
  | [] => []
  | w :: ws => let '(r, c') := call_after_reader w c in r :: calls_after_reader ws c'
  end.

(** The outcomes the statement of the reader contract gives: a failed write returns
    its own error; the first call whose write succeeds gets the
    published error, if there is one; every other call times out. *)
Fixpoint expected_calls (published : option ReadErr) (writes : list (option string)) : list CallResult :=
  match writes with
  | [] => []
  | Some msg :: ws => CallWriteErr msg :: expected_calls published ws
  | None :: ws =>
      match published with
      | Some e => CallServerErr e :: expected_calls None ws
      | None => CallTimeout :: expected_calls None ws
      end
  end.

(** The extensions the spec calls supported. *)
Definition supported_exts : list string := ["go"; "py"; "js"; "jsx"; "ts"; "tsx"; "lua"].

(** ** Lookups of the store and the tool handlers that use them *)

(** [ORDER BY file_path] under SQLite's BINARY collation (byte order). *)
Definition path_le (a b : Node) : Prop := String.compare (FilePath a) (FilePath b) <> Gt.

#[global] Instance path_le_dec : RelDecision path_le.
Proof. intros a b. unfold path_le. apply _. Defined.

(** [ORDER BY line_start]. *)
Definition line_le (a b : Node) : Prop := (LineStart a <= LineStart b)%Z.

#[global] Instance line_le_dec : RelDecision line_le.
Proof. intros a b. unfold line_le. apply _. Defined.

#[global] Instance path_le_total : Total path_le.
Proof.
  intros a b. unfold path_le. rewrite (String.compare_antisym (FilePath b)).
  destruct (String.compare (FilePath a) (FilePath b)); simpl; [left|left|right]; discriminate.
Qed.

#[global] Instance line_le_total : Total line_le.
Proof. intros a b. unfold line_le. lia. Qed.

(** The rows of [nodes] matching a condition, scanned into nodes. *)
Definition select_nodes (P : NodeRow -> bool) (s : Store) : list Node :=
  map (fun kr => node_of kr.1 kr.2) (List.filter (fun kr => P kr.2) (map_to_list (nodes s))).

(** [GetSymbolLocation]: [SELECT ... FROM nodes WHERE name = ? ORDER BY
    file_path]. Rows with equal [file_path] come in an order SQLite
    chooses; here the one of the table, kept by a stable sort. *)
Definition GetSymbolLocation (s : Store) (symbolName : string) : res (list Node) :=
  Ok (merge_sort path_le (select_nodes (fun r => String.eqb (r_name r) symbolName) s)).

(** [GetSymbolsInFile]: [SELECT ... FROM nodes WHERE file_path = ? ORDER BY line_start]. *)
Definition GetSymbolsInFile (s : Store) (filePath : string) : res (list Node) :=
  Ok (merge_sort line_le (select_nodes (fun r => String.eqb (r_file_path r) filePath) s)).

(** What a tool handler returns: [textResult] of a message, of the
    JSON encoding of a list (the encoding is not spelt out) or of
    ["Indexed %d nodes and %d edges"], or [errorResult]. *)
Inductive ToolResult :=
| ToolText (text : string)
| ToolImpactJson (items : list (string * string * string))
| ToolNodesJson (items : list Node)
| ToolIndexed (nodeCount edgeCount : nat)
| ToolError (text : string).

(** [errorResult]: the text shown to the client. *)
Definition tool_error_text (text : string) : string := "ERROR: " ++ text.



(** ** The [index] tool of [server.go] *)

(** The loop over the edges: the first failing [UpsertEdge] ends it
    with its wrapped error; the edges stored so far stay. *)
Fixpoint upsert_edges (es : list Edge) (s : Store) : option string * Store :=
  match es with
  | [] => (None, s)
  | e :: es' =>
      match UpsertEdge e s with
      | Ok s' => upsert_edges es' s'
      | Err m => (Some ("failed to upsert edge " ++ SourceID e ++ "->" ++ TargetID e ++ ": " ++ m), s)
      end
  end.

(** The [index] handler registered by [server.go]: scan the working
    directory [cwd], store every node, enrich with the store as
    resolver, store every edge. *)
Definition index_tool (sc : Scanner) (ign : option (string -> bool)) (cwd : string) (tree : Entry)
    (env : LspEnv) (now : Z) (w : LspWorld) : ToolResult * LspWorld :=
  match Scan sc ign cwd tree with
  | Err e => (ToolError ("Scan failed: " ++ e), w)
  | Ok ns =>
      let w1 := mkLspWorld (upsert_all now ns (db w)) (clients w) (sent w) in
      let '((es, err), w2) := Enrich env ns w1 in
      match err with
      | Some e => (ToolError ("Enrich failed: " ++ enrich_error_message e), w2)
      | None =>
          let '(r, s') := upsert_edges es (db w2) in
          let w3 := mkLspWorld s' (clients w2) (sent w2) in
          match r with
          | Some m => (ToolError ("Failed to store edge: " ++ m), w3)
          | None => (ToolIndexed (length ns) (length es), w3)
          end
      end
  end.

(** ** Re-indexing a file in the watcher *)




(** [addDirectoriesRecursively root]: the directories passed to
    [watcher.Add], in the order of [filepath.Walk]. The callback sees
    the root too, under its base name; [filepath.Rel] is taken to
    succeed for paths under the watched root only, and the gitignore
    test is skipped when it fails. *)
Fixpoint add_dirs (env : WatchEnv) (path : string) (e : Entry) : list string :=
  match e with
  | FileEntry _ _ => []
  | DirEntry name children =>
      let enters := match rel_path (w_root env) path with
                    | Some relPath => watcher_enters_dir (w_gitignore env) name relPath
                    | None => watcher_enters_dir None name ""
                    end in
      if enters then
        path :: (fix add_children (cs : list Entry) : list string :=
                   match cs with
                   | [] => []
                   | c :: cs' => app (add_dirs env (join path (entry_name c)) c) (add_children cs')
                   end) children
      else []
  end.

(** ** Fixtures and auxiliary definitions *)

(** Induction on directory trees, with a hypothesis for every child. *)
Fixpoint Entry_ind' (P : Entry -> Prop)
    (Hf : forall name content, P (FileEntry name content))
    (Hd : forall name children, Forall P children -> P (DirEntry name children))
    (e : Entry) : P e :=
  match e with
  | FileEntry name content => Hf name content
  | DirEntry name children =>
      Hd name children
        ((fix go (cs : list Entry) : Forall P cs :=
            match cs with
            | [] => @List.Forall_nil Entry P
            | c :: cs' => @List.Forall_cons Entry P c cs' (Entry_ind' P Hf Hd c) (go cs')
            end) children)
  end.

(** A node of a file with no known language. *)
Definition readme_node : Node := mkNode "r" "Intro" "section" "/w/README.md" 1 3 1 6 "".

(** A required language whose server command is set but not found. *)
Definition server_missing (cfg : ServiceConfig) (lookPath : string -> bool) (lang : string) : bool :=
  negb (String.eqb (getLanguageServerCommand cfg lang) "") &&
  negb (lookPath (getLanguageServerCommand cfg lang)).

(** What an edge of Enrich looks like, relative to the batch [ns]. *)
Definition enrich_edge_shape (ns : list Node) (e : Edge) : Prop :=
  exists m, In m ns /\ TargetID e = ID m /\ SourceID e <> ID m /\
    Name m <> "" /\ isDefinitionKind (Kind m) = true /\
    (Relation e = "references" \/ (Relation e = "implements" /\ isInterfaceKind (Kind m) = true)).

(** Servers that are installed and start; the references of [Helper]
    ([/w/a.go], line 3) are one use in [/w/b.go], line 5. *)
Definition refs_env : LspEnv :=
  mkLspEnv (mkServiceConfig "" "" "" "" "") (fun _ => true) (fun _ => Started)
    (fun _ => Some "") (fun _ => true)
    (fun uri line _ => if String.eqb uri (PathToURI "/w/a.go") && Z.eqb line 2
                       then Some [mkLocation (PathToURI "/w/b.go") 4 6] else Some [])
    (fun _ _ _ => Some []).

(** A store holding [Helper] and [Caller], no client yet. *)
Definition refs_world : LspWorld :=
  mkLspWorld (UpsertNode 0 caller_node (UpsertNode 0 helper_node (mkStore ∅ [] false))) [] [].

Definition ref_edge : Edge := mkEdge "idB" "idA" "references".

(** A workspace [/w] holding one Go file. *)
Definition go_tree : Entry := DirEntry "w" [FileEntry "a.go" (one_def "function_declaration")].


(** Every id that occurs as a [source_id]. *)
Definition all_sources (E : list Edge) : gset string := list_to_set (map SourceID E).

(** ** Proofs about the impact query *)

Section ImpactProofs.
Variable E : list Edge.

Lemma elem_of_dependents S x :
  x ∈ dependents E S <-> exists e, In e E /\ TargetID e ∈ S /\ SourceID e = x.
Proof.
  unfold dependents. rewrite elem_of_list_to_set, list_elem_of_In, in_map_iff.
  split.
  - intros [e [Hx Hin]]. apply filter_In in Hin as [Hin Hb].
    apply bool_decide_eq_true in Hb. eauto.
  - intros [e [Hin [Ht Hx]]]. exists e. split; [done|].
    apply filter_In. split; [done|]. by apply bool_decide_eq_true.
Qed.

Lemma dependents_all_sources S : dependents E S ⊆ (all_sources E).
Proof.
  intros x Hx. apply elem_of_dependents in Hx as [e [Hin [_ <-]]].
  unfold all_sources. rewrite elem_of_list_to_set, list_elem_of_In.
  by apply in_map.
Qed.

Lemma size_list_to_set_le (l : list string) : size (list_to_set l : gset string) <= length l.
Proof.
  induction l as [|x l IH].
  - rewrite list_to_set_nil, size_empty. simpl. lia.
  - rewrite list_to_set_cons, size_union_alt, size_singleton. simpl.
    pose proof (subseteq_size (list_to_set l ∖ {[x]} : gset string) (list_to_set l)
                  ltac:(set_solver)). lia.
Qed.

Lemma size_all_sources : size (all_sources E) <= length E.
Proof.
  unfold all_sources. etransitivity; [apply size_list_to_set_le|].
  by rewrite length_map.
Qed.

(** The CTE stops: each round that does not reach the fixpoint adds a
    new source id, and there are at most [length E] of them. *)
Lemma cte_loop_terminates f S :
  S ⊆ (all_sources E) -> size (all_sources E) - size S < f ->
  exists T, cte_loop E f S = Some T.
Proof.
  revert S. induction f as [|f IH]; intros S Hsub Hlt; [lia|].
  simpl. case_bool_decide as Hfix; [eauto|].
  apply IH.
  - pose proof (dependents_all_sources S). set_solver.
  - assert (Hss : S ⊂ S ∪ dependents E S).
    { split; [set_solver|]. intros Hback. apply Hfix. set_solver. }
    apply subset_size in Hss.
    assert (size (S ∪ dependents E S) <= size (all_sources E)).
    { apply subseteq_size. pose proof (dependents_all_sources S). set_solver. }
    lia.
Qed.

Lemma cte_loop_closed f S T :
  cte_loop E f S = Some T -> S ⊆ T /\ dependents E T ⊆ T.
Proof.
  revert S. induction f as [|f IH]; intros S H; simpl in H; [discriminate|].
  case_bool_decide as Hfix.
  - injection H as <-. split; [set_solver|]. rewrite <- Hfix at 2. set_solver.
  - apply IH in H as [H1 H2]. split; [set_solver | done].
Qed.

Lemma cte_loop_inv (P : string -> Prop) f S T :
  cte_loop E f S = Some T ->
  (forall x, x ∈ S -> P x) ->
  (forall S' y, (forall x, x ∈ S' -> P x) -> y ∈ dependents E S' -> P y) ->
  forall x, x ∈ T -> P x.
Proof.
  revert S. induction f as [|f IH]; intros S H HS Hstep; simpl in H; [discriminate|].
  case_bool_decide as Hfix.
  - injection H as <-. exact HS.
  - apply (IH _ H); [|exact Hstep].
    intros x Hx. apply elem_of_union in Hx as [Hx|Hx]; [auto|].
    by apply (Hstep S).
Qed.

Lemma impacted_spec t :
  exists T, impacted E t = Some T /\ forall x, x ∈ T <-> reaches E x t.
Proof.
  unfold impacted.
  destruct (cte_loop_terminates (length E + 1) (dependents E {[t]}))
    as [T HT].
  { apply dependents_all_sources. }
  { pose proof size_all_sources. lia. }
  exists T. split; [done|]. intros x. split.
  - apply (cte_loop_inv (fun x => reaches E x t) _ _ _ HT).
    + intros y Hy. apply elem_of_dependents in Hy as [e [Hin [Ht <-]]].
      apply elem_of_singleton in Ht. subst. by constructor.
    + intros S' y HS' Hy. apply elem_of_dependents in Hy as [e [Hin [Ht <-]]].
      apply reaches_step; auto.
  - apply cte_loop_closed in HT as [Hbase Hclosed].
    assert (Hgen : forall x y, reaches E x y -> y = t -> x ∈ T).
    { intros x0 y Hr. induction Hr as [e Hin|e y Hin Hr IH]; intros Hy.
      - apply Hbase, elem_of_dependents. exists e.
        split; [done|]. split; [|done]. rewrite Hy. set_solver.
      - apply Hclosed, elem_of_dependents. exists e. split; [done|]. split; [|done].
        by apply IH. }
    intros Hr. by apply (Hgen x t).
Qed.

End ImpactProofs.

Section FindImpactProofs.
Variable s : Store.

(** Every entry of [uniqueNodes] is the row stored under its key. *)
Definition good_map (m : gmap string Node) : Prop :=
  forall k v, m !! k = Some v -> exists r, nodes s !! k = Some r /\ v = node_of k r.

Lemma impact_rows_elem T n :
  n ∈ impact_rows s T <-> exists k r, nodes s !! k = Some r /\ k ∈ T /\ n = node_of k r.
Proof.
  unfold impact_rows. rewrite list_elem_of_fmap. split.
  - intros [[k r] [-> Hin]]. apply list_elem_of_filter in Hin as [HT Hin].
    apply elem_of_map_to_list in Hin. simpl in *. eauto.
  - intros (k & r & Hk & HT & ->). exists (k, r). split; [done|].
    apply list_elem_of_filter. split; [done|]. by apply elem_of_map_to_list.
Qed.

Lemma fold_insert_spec (l : list Node) (m : gmap string Node) :
  (forall k, is_Some (fold_left (fun m n => <[ID n := n]> m) l m !! k) <->
             is_Some (m !! k) \/ exists n, n ∈ l /\ ID n = k) /\
  (good_map m -> (forall n, n ∈ l -> exists r, nodes s !! ID n = Some r /\ n = node_of (ID n) r) ->
   good_map (fold_left (fun m n => <[ID n := n]> m) l m)).
Proof.
  revert m. induction l as [|n l IH]; intros m; simpl.
  - split; [|done]. intros k. split; [auto|]. intros [H|(n & Hn & _)]; [done|].
    by apply elem_of_nil in Hn.
  - destruct (IH (<[ID n := n]> m)) as [IH1 IH2]. split.
    + intros k. rewrite IH1. rewrite lookup_insert_is_Some'. split.
      * intros [[<-|H]|(n' & Hn' & <-)].
        -- right. exists n. split; [left|done].
        -- by left.
        -- right. exists n'. split; [by right|done].
      * intros [H|(n' & Hn' & <-)]; [left; by right|].
        apply elem_of_cons in Hn' as [->|Hn']; [left; by left|].
        right. eauto.
    + intros Hm Hl. apply IH2.
      * intros k v Hk. apply lookup_insert_Some in Hk as [[<- <-]|[_ Hk]]; [|by apply Hm].
        apply Hl. left.
      * intros n' Hn'. apply Hl. by right.
Qed.

Lemma collect_impact_spec (tids : list string) (m0 : gmap string Node) :
  good_map m0 ->
  exists m, collect_impact s tids m0 = Ok m /\ good_map m /\
    forall k, is_Some (m !! k) <->
      is_Some (m0 !! k) \/
      exists t, t ∈ tids /\ is_Some (nodes s !! k) /\ reaches (edges s) k t.
Proof.
  revert m0. induction tids as [|t tids IH]; intros m0 Hm0; simpl.
  - exists m0. split; [done|]. split; [done|]. intros k. split; [auto|].
    intros [H|(t & Ht & _)]; [done|]. by apply elem_of_nil in Ht.
  - destruct (impacted_spec (edges s) t) as [T [HT HTspec]]. rewrite HT.
    destruct (fold_insert_spec (impact_rows s T) m0) as [F1 F2].
    destruct (IH (fold_left (fun m n => <[ID n := n]> m) (impact_rows s T) m0))
      as [m [Hc [Hgood Hdom]]].
    { apply F2; [done|]. intros n Hn. apply impact_rows_elem in Hn as (k & r & Hk & _ & ->).
      simpl. eauto. }
    exists m. split; [done|]. split; [done|]. intros k. rewrite Hdom, F1. split.
    + intros [[H|(n & Hn & <-)]|(t' & Ht' & Hk & Hr)].
      * by left.
      * apply impact_rows_elem in Hn as (k & r & Hk & HkT & ->). simpl.
        right. exists t. split; [left|]. split; [eauto|]. by apply HTspec.
      * right. exists t'. split; [by right|]. auto.
    + intros [H|(t' & Ht' & [r Hk] & Hr)]; [left; by left|].
      apply elem_of_cons in Ht' as [->|Ht'].
      * left. right. exists (node_of k r). split; [|done].
        apply impact_rows_elem. exists k, r. split; [done|]. split; [|done].
        by apply HTspec.
      * right. exists t'. split; [done|]. split; [eauto|done].
Qed.

Lemma target_ids_elem name t :
  t ∈ target_ids s name <-> exists rt, nodes s !! t = Some rt /\ r_name rt = name.
Proof.
  unfold target_ids. rewrite list_elem_of_fmap. split.
  - intros [[k r] [-> Hin]]. apply list_elem_of_filter in Hin as [Hn Hin].
    apply elem_of_map_to_list in Hin. simpl in *. eauto.
  - intros (rt & Hk & Hn). exists (t, rt). split; [done|].
    apply list_elem_of_filter. split; [done|]. by apply elem_of_map_to_list.
Qed.

(** The result of [FindImpact], characterised once for the two claims
    about it. *)
Lemma FindImpact_members name :
  exists result, FindImpact s name = Ok result /\
    NoDup (map ID result) /\
    forall n, In n result <->
      exists r, nodes s !! ID n = Some r /\ n = node_of (ID n) r /\
        exists t rt, nodes s !! t = Some rt /\ r_name rt = name /\
                     reaches (edges s) (ID n) t.
Proof.
  unfold FindImpact. destruct (target_ids s name) as [|t0 tl] eqn:Htids.
  - exists []. split; [done|]. split; [constructor|]. intros n. split; [done|].
    intros (r & _ & _ & t & rt & Ht & Hname & _).
    assert (Hin : t ∈ target_ids s name) by (apply target_ids_elem; eauto).
    rewrite Htids in Hin. by apply elem_of_nil in Hin.
  - destruct (collect_impact_spec (t0 :: tl) ∅) as [m [Hc [Hgood Hdom]]].
    { intros k v Hk. by rewrite lookup_empty in Hk. }
    rewrite Hc. eexists. split; [reflexivity|]. split.
    + assert (Hids : map ID (map snd (map_to_list m)) = (map_to_list m).*1).
      { rewrite map_map. apply map_ext_in. intros [k v] Hkv.
        apply list_elem_of_In, elem_of_map_to_list in Hkv.
        destruct (Hgood _ _ Hkv) as [r [_ ->]]. done. }
      rewrite Hids. apply NoDup_fst_map_to_list.
    + intros n. rewrite <- list_elem_of_In, list_elem_of_fmap. split.
      * intros [[k v] [-> Hkv]]. apply elem_of_map_to_list in Hkv. simpl.
        destruct (Hgood _ _ Hkv) as [r [Hr ->]]. simpl.
        exists r. split; [done|]. split; [done|].
        assert (Hs : is_Some (m !! k)) by eauto.
        apply Hdom in Hs as [Hs|(t & Ht & _ & Hreach)];
          [by rewrite lookup_empty in Hs; destruct Hs|].
        rewrite <- Htids in Ht. apply target_ids_elem in Ht as (rt & Hrt & Hname).
        eauto.
      * intros (r & Hr & Hn & t & rt & Ht & Hname & Hreach).
        assert (Hs : is_Some (m !! ID n)).
        { apply Hdom. right. exists t. split; [|eauto].
          rewrite <- Htids. apply target_ids_elem. eauto. }
        destruct Hs as [v Hv]. exists (ID n, v). split; [|by apply elem_of_map_to_list].
        simpl. destruct (Hgood _ _ Hv) as [r' [Hr' ->]]. rewrite Hr in Hr'.
        injection Hr' as ->. done.
Qed.

End FindImpactProofs.

(** A path that ends somewhere else than the single edge's target does
    not exist. *)
Lemma reaches_single_edge e x y : reaches [e] x y -> y = TargetID e.
Proof.
  induction 1 as [e' Hin|e' y' Hin _ IH].
  - destruct Hin as [<-|[]]. done.
  - exact IH.
Qed.

(** C1: [FindImpact s name] always finishes (the recursive query reaches
    its fixpoint, also on cyclic edge sets) and returns, without
    duplicate ids, exactly the stored nodes from which a nonempty edge
    path leads to some stored node named [name]; in particular, for an
    edge chain a -> b -> c -> d, the result for d's name contains a, b
    and c. *)
Theorem FindImpact_reverse_reachability (s : Store) (name : string) :
  exists result, FindImpact s name = Ok result /\
    NoDup (map ID result) /\
    (forall n, In n result <->
       exists r, nodes s !! ID n = Some r /\ n = node_of (ID n) r /\
         exists t rt, nodes s !! t = Some rt /\ r_name rt = name /\
                      reaches (edges s) (ID n) t) /\
    (forall a b c d ra rb rc rd rel1 rel2 rel3,
       nodes s !! a = Some ra -> nodes s !! b = Some rb ->
       nodes s !! c = Some rc -> nodes s !! d = Some rd ->
       In (mkEdge a b rel1) (edges s) -> In (mkEdge b c rel2) (edges s) ->
       In (mkEdge c d rel3) (edges s) -> r_name rd = name ->
       In (node_of a ra) result /\ In (node_of b rb) result /\ In (node_of c rc) result).
Proof.
  destruct (FindImpact_members s name) as (result & Hres & Hnd & Hmem).
  exists result. split; [done|]. split; [done|]. split; [done|].
  intros a b c d ra rb rc rd rel1 rel2 rel3 Ha Hb Hc Hd E1 E2 E3 Hname.
  assert (Rc : reaches (edges s) c d) by exact (reaches_one _ _ E3).
  assert (Rb : reaches (edges s) b d) by exact (reaches_step _ _ d E2 Rc).
  assert (Ra : reaches (edges s) a d) by exact (reaches_step _ _ d E1 Rb).
  split; [|split]; apply Hmem; simpl; eexists; (split; [eassumption|]);
    (split; [done|]); exists d, rd; auto.
Qed.

Lemma FindImpact_reverse_reachability_witness :
  exists result, FindImpact chain_store "D" = Ok result /\
    In (node_of "a" (fn_row "A" "/w/a.go")) result.
Proof.
  destruct (FindImpact_reverse_reachability chain_store "D") as (result & Hres & _ & _ & Hchain).
  exists result. split; [exact Hres|].
  refine (proj1 (Hchain "a" "b" "c" "d" _ _ _ (fn_row "D" "/w/d.go")
                   "references" "references" "references"
                   eq_refl eq_refl eq_refl eq_refl _ _ _ eq_refl)).
  - simpl. left. reflexivity.
  - simpl. right. left. reflexivity.
  - simpl. right. right. left. reflexivity.
Defined.

(** C9 (counterexample): with two nodes named "f" and an edge from the
    first to the second, [FindImpact "f"] returns the first, a queried
    target, although no nonempty path leads from it back to itself. *)
Lemma FindImpact_includes_target_without_cycle :
  exists result, FindImpact two_targets_store "f" = Ok result /\
    In (node_of "t1" (fn_row "f" "/w/a.go")) result /\
    Name (node_of "t1" (fn_row "f" "/w/a.go")) = "f" /\
    ~ reaches (edges two_targets_store) "t1" "t1".
Proof.
  exists [node_of "t1" (fn_row "f" "/w/a.go")]. split; [vm_compute; reflexivity|].
  split; [left; reflexivity|]. split; [reflexivity|].
  intros H. apply reaches_single_edge in H. discriminate.
Qed.

(** C9 (amended): a node carrying the queried name is in the result of
    [FindImpact] only when a nonempty edge path leads from it to some
    node carrying that name (itself or another match); when it is the
    only node with that name, it is in the result only if it lies on a
    cycle. *)
Theorem FindImpact_target_only_via_path (s : Store) (name : string) :
  exists result, FindImpact s name = Ok result /\
    forall n, In n result -> Name n = name ->
      (exists t rt, nodes s !! t = Some rt /\ r_name rt = name /\
                    reaches (edges s) (ID n) t) /\
      ((forall k rk, nodes s !! k = Some rk -> r_name rk = name -> k = ID n) ->
       reaches (edges s) (ID n) (ID n)).
Proof.
  destruct (FindImpact_members s name) as (result & Hres & _ & Hmem).
  exists result. split; [done|]. intros n Hin Hname.
  apply Hmem in Hin as (r & Hr & Hn & t & rt & Ht & Htn & Hreach).
  split; [eauto|]. intros Huniq.
  pose proof (Huniq t rt Ht Htn) as Heq. rewrite Heq in Hreach. exact Hreach.
Qed.

Lemma FindImpact_target_only_via_path_witness :
  exists result, FindImpact cycle_store "g" = Ok result /\
    reaches (edges cycle_store) "x" "x".
Proof.
  destruct (FindImpact_target_only_via_path cycle_store "g") as (result & Hres & H).
  exists result. split; [exact Hres|].
  assert (Hin : In (node_of "x" (fn_row "g" "/w/x.go")) result).
  { vm_compute in Hres. injection Hres as <-. simpl. auto. }
  apply (proj2 (H _ Hin eq_refl)).
  intros k rk Hk Hrk. simpl in Hk.
  apply lookup_insert_Some in Hk as [[<- <-]|[_ Hk]]; [reflexivity|].
  apply lookup_insert_Some in Hk as [[<- <-]|[_ Hk]];
    [simpl in Hrk; discriminate Hrk | by rewrite lookup_empty in Hk].
Defined.

(** ** Deleting and pruning *)

Lemma DeleteNodesByFile_lookup p s k r :
  nodes (DeleteNodesByFile p s) !! k = Some r <->
  nodes s !! k = Some r /\ r_file_path r <> p.
Proof. unfold DeleteNodesByFile. simpl. by rewrite map_lookup_filter_Some. Qed.

Lemma DeleteNodesByFile_edges_no_fk p s :
  foreign_keys s = false -> edges (DeleteNodesByFile p s) = edges s.
Proof. intros H. unfold DeleteNodesByFile. simpl. by rewrite H. Qed.

(** With enforced foreign keys the cascade would remove every edge with
    a deleted endpoint. *)
Lemma DeleteNodesByFile_cascade_fk p s e :
  foreign_keys s = true -> In e (edges (DeleteNodesByFile p s)) ->
  forall k r, (k = SourceID e \/ k = TargetID e) ->
    nodes s !! k = Some r -> r_file_path r <> p.
Proof.
  intros Hfk Hin k r Hk Hr. unfold DeleteNodesByFile in Hin. simpl in Hin.
  rewrite Hfk in Hin. apply filter_In in Hin as [_ Hb].
  apply negb_true_iff, orb_false_iff in Hb as [Hs Ht].
  intros Heq. destruct Hk as [->| ->].
  - rewrite Hr in Hs. cbn in Hs. rewrite Heq, String.eqb_refl in Hs. discriminate.
  - rewrite Hr in Ht. cbn in Ht. rewrite Heq, String.eqb_refl in Ht. discriminate.
Qed.

Lemma store_files_elem s p :
  p ∈ store_files s <-> exists k r, nodes s !! k = Some r /\ r_file_path r = p.
Proof.
  unfold store_files. rewrite elem_of_list_to_set, list_elem_of_fmap. split.
  - intros [[k r] [-> Hin]]. apply elem_of_map_to_list in Hin. eauto.
  - intros (k & r & Hk & <-). exists (k, r). split; [done|].
    by apply elem_of_map_to_list.
Qed.

Lemma db_files_elem s p :
  p ∈ db_files s <-> exists k r, nodes s !! k = Some r /\ r_file_path r = p.
Proof.
  unfold db_files. rewrite elem_of_remove_dups, list_elem_of_fmap. split.
  - intros [[k r] [-> Hin]]. apply elem_of_map_to_list in Hin. eauto.
  - intros (k & r & Hk & <-). exists (k, r). split; [done|].
    by apply elem_of_map_to_list.
Qed.

Lemma prune_loop_lookup (keep : string -> bool) (F : list string) s k r :
  nodes (fold_left (fun st file => if keep file then st else DeleteNodesByFile file st) F s) !! k
    = Some r <->
  nodes s !! k = Some r /\ (keep (r_file_path r) = true \/ r_file_path r ∉ F).
Proof.
  revert s. induction F as [|f F IH]; intros s; simpl.
  - split; [intros H; split; [done|right; apply not_elem_of_nil]|tauto].
  - rewrite IH. destruct (keep f) eqn:Hk.
    + split.
      * intros [H [H1|H1]]; split; [done|left; done|done|].
        destruct (decide (r_file_path r = f)) as [->|Hne]; [by left|].
        right. rewrite not_elem_of_cons. done.
      * intros [H [H1|H1]]; split; [done|by left|done|].
        right. rewrite not_elem_of_cons in H1. tauto.
    + rewrite DeleteNodesByFile_lookup. split.
      * intros [[H Hne] [H1|H1]]; split; [done|by left|done|].
        right. rewrite not_elem_of_cons. done.
      * intros [H [H1|H1]].
        -- split; [|by left]. split; [done|]. intros Heq. rewrite Heq in H1. congruence.
        -- rewrite not_elem_of_cons in H1. destruct H1 as [Hne H1].
           split; [done|by right].
Qed.

Lemma PruneStaleFiles_lookup found s k r :
  nodes (PruneStaleFiles found s) !! k = Some r <->
  nodes s !! k = Some r /\ r_file_path r ∈ found.
Proof.
  unfold PruneStaleFiles. rewrite prune_loop_lookup. split.
  - intros [H [H1|H1]].
    + split; [done|]. by apply bool_decide_eq_true in H1.
    + exfalso. apply H1, db_files_elem. eauto.
  - intros [H H1]. split; [done|]. left. by apply bool_decide_eq_true.
Qed.

Lemma distinct_file_paths_elem ns p :
  p ∈ distinct_file_paths ns <-> p ∈ map FilePath ns.
Proof.
  unfold distinct_file_paths.
  assert (Hgen : forall acc, p ∈ fold_left (fun (acc : list string) n =>
               if bool_decide (FilePath n ∈ acc) then acc else app acc [FilePath n]) ns acc
                 <-> p ∈ acc \/ p ∈ map FilePath ns).
  { induction ns as [|n ns IH]; intros acc; simpl.
    - split; [auto|]. intros [H|H]; [done|by apply elem_of_nil in H].
    - rewrite IH, elem_of_cons. case_bool_decide as Hb.
      + split; [tauto|]. intros [H|[->|H]]; auto.
      + rewrite elem_of_app, list_elem_of_singleton. tauto. }
  rewrite Hgen. split; [intros [H|H]; [by apply elem_of_nil in H|done]|auto].
Qed.

Lemma upsert_all_present now ns s n :
  In n ns ->
  exists n', In n' ns /\ ID n' = ID n /\ nodes (upsert_all now ns s) !! ID n = Some (row_of n' now).
Proof.
  unfold upsert_all. revert s n. induction ns as [|m ns IH]; intros s n Hin; [done|].
  simpl. destruct (existsb (fun n' => String.eqb (ID n') (ID n)) ns) eqn:He.
  - apply existsb_exists in He as [n1 [Hn1 Hid1]]. apply String.eqb_eq in Hid1.
    destruct (IH (UpsertNode now m s) n1 Hn1) as [n' [Hn' [Hid' Hl]]].
    exists n'. split; [by right|]. rewrite Hid1 in Hid', Hl. auto.
  - assert (Hnot : ~ exists n', In n' ns /\ ID n' = ID n).
    { intros [n' [Hn' Hid]]. assert (existsb (fun n' => String.eqb (ID n') (ID n)) ns = true)
        by (apply existsb_exists; exists n'; split; [done|by apply String.eqb_eq]).
      congruence. }
    assert (Hkeep : forall st, nodes (fold_left (fun st n => UpsertNode now n st) ns st) !! ID n
                              = nodes st !! ID n).
    { clear IH Hin He. induction ns as [|m' ns IH']; intros st; [done|]. simpl.
      rewrite IH'; [|intros [n' [Hn' Hid]]; apply Hnot; exists n'; split; [by right|done]].
      simpl. rewrite lookup_insert_ne; [done|]. intros Heq. apply Hnot.
      exists m'. split; [by left|done]. }
    destruct Hin as [->|Hin]; [|exfalso; apply Hnot; eauto].
    exists n. split; [by left|]. split; [done|]. rewrite Hkeep. simpl.
    apply lookup_insert_eq.
Qed.

(** C2: [db.New] builds a DSN without [_foreign_keys], so the
    connection keeps foreign keys off and the [ON DELETE CASCADE] of the
    schema never fires: after [DeleteNodesByFile "/w/a.go"] the edge
    from the caller to the deleted node [idA] is still stored, although
    its target is gone. *)
Theorem DeleteNodesByFile_leaves_dangling_edge :
  exists s0 s2,
    New "/w/.ctxhub/codegraph.sqlite" = Ok s0 /\
    foreign_keys s0 = false /\
    UpsertEdge (mkEdge "idB" "idA" "references")
               (UpsertNode 0 caller_node (UpsertNode 0 helper_node s0)) = Ok s2 /\
    nodes s2 !! "idA" = Some (row_of helper_node 0) /\
    r_file_path (row_of helper_node 0) = "/w/a.go" /\
    nodes (DeleteNodesByFile "/w/a.go" s2) !! "idA" = None /\
    In (mkEdge "idB" "idA" "references") (edges (DeleteNodesByFile "/w/a.go" s2)).
Proof.
  eexists. eexists. split; [vm_compute; reflexivity|].
  split; [vm_compute; reflexivity|].
  split; [vm_compute; reflexivity|].
  split; [vm_compute; reflexivity|].
  split; [reflexivity|].
  split; [vm_compute; reflexivity|].
  vm_compute. left. reflexivity.
Qed.

(** C3: after upserting every node of a batch [ns] and pruning with the
    distinct file paths of [ns], the file paths present in the store are
    exactly those of [ns].  Batches are as the scanner builds them: the
    node id is a fingerprint of the file and the name, so two nodes of
    the batch with the same id have the same file path. *)
Theorem prune_after_upsert_files (now : Z) (ns : list Node) (s : Store) :
  (forall n m, In n ns -> In m ns -> ID n = ID m -> FilePath n = FilePath m) ->
  store_files (PruneStaleFiles (distinct_file_paths ns) (upsert_all now ns s))
    = list_to_set (map FilePath ns).
Proof.
  intros Hid. apply set_eq. intros p.
  rewrite store_files_elem, elem_of_list_to_set. split.
  - intros (k & r & Hk & <-). apply PruneStaleFiles_lookup in Hk as [_ Hf].
    by apply distinct_file_paths_elem.
  - intros Hp. apply list_elem_of_fmap in Hp as [n [-> Hn]].
    apply list_elem_of_In in Hn.
    destruct (upsert_all_present now ns s n Hn) as [n' [Hn' [Hid' Hl]]].
    exists (ID n), (row_of n' now). split.
    + apply PruneStaleFiles_lookup. split; [done|]. simpl.
      rewrite (Hid n' n Hn' Hn Hid'). apply distinct_file_paths_elem.
      apply list_elem_of_fmap. exists n. split; [done|]. by apply list_elem_of_In.
    + simpl. by apply Hid.
Qed.

Lemma prune_after_upsert_files_witness :
  (forall n m, In n [helper_node; caller_node] -> In m [helper_node; caller_node] ->
               ID n = ID m -> FilePath n = FilePath m) /\
  store_files (PruneStaleFiles (distinct_file_paths [helper_node; caller_node])
                 (upsert_all 7 [helper_node; caller_node] stale_store))
    = list_to_set ["/w/a.go"; "/w/b.go"].
Proof.
  assert (H : forall n m, In n [helper_node; caller_node] -> In m [helper_node; caller_node] ->
               ID n = ID m -> FilePath n = FilePath m).
  { intros n m Hn Hm Heq.
    destruct Hn as [<-|[<-|[]]]; destruct Hm as [<-|[<-|[]]]; vm_compute in Heq |- *;
      first [reflexivity | discriminate Heq]. }
  split; [exact H|].
  exact (prune_after_upsert_files 7 [helper_node; caller_node] stale_store H).
Defined.

(** ** Scanner *)

(** C6: [Scan] skips hidden directories, [node_modules],
    [vendor] and [zig-out], but not [__pycache__]: a Python file under
    [/w/__pycache__] is scanned and its definition emitted, by both
    scanner revisions. *)
Theorem Scan_descends_into_pycache :
  scan_enters_dir None "__pycache__" "__pycache__" = true /\
  Scan scanner_go_New None "/w" pycache_tree =
    Ok [mkNode (GenerateNodeID "__pycache__/m.py" "f") "f" "function_definition"
               "/w/__pycache__/m.py" 1 1 5 6 ""] /\
  Scan part_002_New None "/w" pycache_tree =
    Ok [mkNode (GenerateNodeID "__pycache__/m.py" "f") "f" "function_definition"
               "/w/__pycache__/m.py" 1 1 5 6 ""].
Proof. split; [|split]; vm_compute; reflexivity. Qed.

(** The directories the full scan does skip. *)
Lemma Scan_skips_named_dirs ign rel :
  scan_enters_dir ign ".git" rel = false /\
  scan_enters_dir ign "node_modules" rel = false /\
  scan_enters_dir ign "vendor" rel = false /\
  scan_enters_dir ign "zig-out" rel = false.
Proof. repeat split. Qed.

(** C7: the scanner of [internal/scanner/scanner.go] registers
    no parser for [.tsx] (nor [.jsx]): [ScanFile] on a readable TSX file
    fails with "unsupported file extension: tsx", and the full scan
    yields no node for it, while the revision in part_002 scans it. *)
Theorem ScanFile_rejects_tsx :
  ScanFile_v1 scanner_go_New tsx_fs "/w/App.tsx" "App.tsx" =
    Err "unsupported file extension: tsx" /\
  ScanFile_v1 scanner_go_New tsx_fs "/w/App.jsx" "App.jsx" =
    Err "unsupported file extension: jsx" /\
  Scan scanner_go_New None "/w" tsx_tree = Ok [] /\
  ScanFile_v2 part_002_New tsx_fs "App.tsx" "/w/App.tsx" "App.tsx" =
    Ok [mkNode (GenerateNodeID "App.tsx" "f") "f" "function_declaration"
               "/w/App.tsx" 1 1 5 6 (PathToURI "/w/App.tsx")].
Proof. repeat split; vm_compute; reflexivity. Qed.

(** The revision in part_002 supports exactly the seven extensions. *)
Lemma part_002_registers_supported :
  languages part_002_New = supported_exts /\ queries part_002_New = supported_exts.
Proof. split; vm_compute; reflexivity. Qed.

Lemma part_002_ScanFile_spec fs relPath path name :
  let ext := trim_dot (Ext name) in
  (ext ∉ supported_exts ->
     ScanFile_v2 part_002_New fs relPath path name = Err ("unsupported file extension: " ++ ext)) /\
  (ext ∈ supported_exts -> forall pr, fs path = Some (Some pr) ->
     ScanFile_v2 part_002_New fs relPath path name =
       Ok (nodes_of_matches relPath path (PathToURI path) (matches pr))).
Proof.
  simpl. destruct part_002_registers_supported as [Hl Hq]. unfold ScanFile_v2.
  rewrite Hl, Hq. unfold has. split.
  - intros Hn. rewrite bool_decide_false by done. reflexivity.
  - intros Hy pr Hfs. rewrite bool_decide_true by done. simpl. by rewrite Hfs.
Qed.

(** ** Proofs about the watcher *)

Lemma handleEvent_source env (p : string) (t op : Z) (w : Watcher) :
  watched_source env p = true -> write_or_create op = true ->
  handleEvent env t (mkEvent p op) w = debounceFile t p w.
Proof.
  unfold watched_source, handleEvent, write_or_create. cbn.
  destruct (rel_path (w_root env) p) as [r|]; [|discriminate].
  destruct (match w_gitignore env with Some m => m r | None => false end); [discriminate|].
  cbn. intros Hs Hop. rewrite Hs. cbn.
  destruct (has_op op OpWrite); [reflexivity|]. cbn in Hop. rewrite Hop. reflexivity.
Qed.

Lemma handleEvent_gitignored env (t : Z) (ev : Event) (w : Watcher) (r : string) :
  rel_path (w_root env) (ev_name ev) = Some r ->
  (exists m, w_gitignore env = Some m /\ m r = true) ->
  handleEvent env t ev w = w.
Proof.
  intros Hr [m [Hm Hmr]]. unfold handleEvent. rewrite Hr, Hm, Hmr. reflexivity.
Qed.

Lemma NoDup_fst_filter {B} (P : string * B -> Prop) `{forall x, Decision (P x)} (l : list (string * B)) :
  NoDup (map fst l) -> NoDup (map fst (filter P l)).
Proof.
  induction l as [|[k v] l IH]; [intros _; constructor|].
  cbn [map fst]. rewrite NoDup_cons. intros [Hk Hl].
  rewrite filter_cons. destruct (decide (P (k, v))); cbn; [|auto].
  constructor; [|auto].
  intros Hin. apply Hk. apply list_elem_of_fmap in Hin as [[k' v'] [-> Hin]].
  apply list_elem_of_filter in Hin as [_ Hin].
  apply list_elem_of_fmap. exists (k', v'). auto.
Qed.

Lemma ready_files_NoDup (t : Z) (m : gmap string Z) : NoDup (ready_files t m).
Proof. apply NoDup_fst_filter, NoDup_fst_map_to_list. Qed.

Lemma ready_files_elem (t : Z) (m : gmap string Z) (k : string) :
  k ∈ ready_files t m <-> exists d, m !! k = Some d /\ (d < t)%Z.
Proof.
  unfold ready_files. rewrite list_elem_of_fmap. split.
  - intros [[k' d] [-> Hin]]. apply list_elem_of_filter in Hin as [Hd Hin].
    apply elem_of_map_to_list in Hin. exists d. auto.
  - intros [d [Hk Hd]]. exists (k, d). split; [reflexivity|].
    apply list_elem_of_filter. split; [exact Hd|]. apply elem_of_map_to_list. exact Hk.
Qed.

Lemma count_reindex_map (p : string) (l : list string) :
  NoDup l ->
  length (List.filter (fun a => bool_decide (a = Reindex p)) (map Reindex l))
  = if bool_decide (p ∈ l) then 1%nat else 0%nat.
Proof.
  induction l as [|x l IH]; intros Hnd; cbn.
  - rewrite bool_decide_false; [reflexivity|]. apply not_elem_of_nil.
  - apply NoDup_cons in Hnd as [Hx Hnd].
    destruct (decide (x = p)) as [->|Hne].
    + rewrite bool_decide_true by reflexivity. cbn. rewrite IH by exact Hnd.
      rewrite (bool_decide_false (p ∈ l)) by exact Hx.
      rewrite bool_decide_true by (apply elem_of_cons; left; reflexivity). reflexivity.
    + rewrite bool_decide_false by congruence. rewrite IH by exact Hnd.
      rewrite (bool_decide_ext (p ∈ x :: l) (p ∈ l)); [reflexivity|].
      rewrite elem_of_cons. intuition congruence.
Qed.

Lemma process_lookup (t : Z) (w : Watcher) (k : string) :
  pendingFiles (processPendingFiles t w) !! k =
  match pendingFiles w !! k with
  | Some d => if bool_decide (d < t)%Z then None else Some d
  | None => None
  end.
Proof.
  cbn. rewrite map_lookup_filter. destruct (pendingFiles w !! k) as [d|]; cbn; [|reflexivity].
  destruct (bool_decide_reflect (d < t)%Z) as [Hd|Hd].
  - rewrite option_guard_False by (intros Hn; exact (Hn Hd)). reflexivity.
  - rewrite option_guard_True by exact Hd. reflexivity.
Qed.

Lemma process_count (t : Z) (w : Watcher) (k : string) :
  reindex_count k (processPendingFiles t w) =
  (reindex_count k w +
   match pendingFiles w !! k with
   | Some d => if bool_decide (d < t)%Z then 1 else 0
   | None => 0
   end)%nat.
Proof.
  unfold reindex_count. cbn. rewrite List.filter_app, length_app. f_equal.
  rewrite count_reindex_map by apply ready_files_NoDup.
  destruct (pendingFiles w !! k) as [d|] eqn:Hk.
  - rewrite (bool_decide_ext _ (d < t)%Z); [reflexivity|]. rewrite ready_files_elem. split.
    + intros [d' [Hk' Hd']]. congruence.
    + intros Hd. exists d. auto.
  - rewrite bool_decide_false; [reflexivity|]. rewrite ready_files_elem.
    intros [d' [Hk' _]]. congruence.
Qed.

Lemma debounce_count (t : Z) (p k : string) (w : Watcher) : reindex_count k (debounceFile t p w) = reindex_count k w.
Proof. reflexivity. Qed.

Section Burst.
Variable env : WatchEnv.
Variable p : string.
Hypothesis Hsrc : watched_source env p = true.
Variable t1 : Z.
Variable c0 : nat.

Lemma burst_step w i : burst_input p t1 i -> in_burst p t1 c0 w -> in_burst p t1 c0 (step env w i).
Proof.
  destruct i as [[name op] t|t]; cbn.
  - intros [-> [Hop Ht]] [_ Hc]. rewrite handleEvent_source by assumption.
    split; [|exact Hc]. exists (t + debounceTime)%Z. cbn.
    rewrite lookup_insert_eq. unfold debounceTime. split; [reflexivity|lia].
  - intros Ht [[d [Hd Hr]] Hc]. split.
    + exists d. rewrite process_lookup, Hd, bool_decide_false by lia. split; [reflexivity|lia].
    + rewrite process_count, Hd, bool_decide_false by lia. lia.
Qed.

Lemma burst_run inputs w :
  Forall (burst_input p t1) inputs -> in_burst p t1 c0 w -> in_burst p t1 c0 (run env inputs w).
Proof.
  revert w. induction inputs as [|i inputs IH]; intros w Hall Hw; [exact Hw|].
  apply Forall_cons in Hall as [Hi Hall]. cbn. apply IH; [exact Hall|].
  apply burst_step; assumption.
Qed.

Lemma flushed_tick w t : flushed p c0 w -> flushed p c0 (processPendingFiles t w).
Proof.
  intros [Hn Hc]. split.
  - rewrite process_lookup, Hn. reflexivity.
  - rewrite process_count, Hn. lia.
Qed.

Lemma waiting_tick w t :
  waiting p t1 c0 w \/ flushed p c0 w ->
  (waiting p t1 c0 (processPendingFiles t w) \/ flushed p c0 (processPendingFiles t w))
  /\ ((t1 + 1000 <= t)%Z -> flushed p c0 (processPendingFiles t w)).
Proof.
  intros [[[d [Hd Hlt]] Hc]|Hf].
  - destruct (decide (d < t)%Z) as [Hdt|Hdt].
    + assert (Hfl : flushed p c0 (processPendingFiles t w)).
      { split.
        - rewrite process_lookup, Hd, bool_decide_true by exact Hdt. reflexivity.
        - rewrite process_count, Hd, bool_decide_true by exact Hdt. lia. }
      split; [right; exact Hfl|intros _; exact Hfl].
    + split.
      * left. split.
        -- exists d. rewrite process_lookup, Hd, bool_decide_false by exact Hdt. auto.
        -- rewrite process_count, Hd, bool_decide_false by exact Hdt. lia.
      * intros Ht. lia.
  - split; [right|intros _]; apply flushed_tick; exact Hf.
Qed.

Lemma flushed_run ticks w : Forall is_tick ticks -> flushed p c0 w -> flushed p c0 (run env ticks w).
Proof.
  revert w. induction ticks as [|[ev t|t] ticks IH]; intros w Hall Hw; [exact Hw| |].
  - apply Forall_cons in Hall as [[] _].
  - apply Forall_cons in Hall as [_ Hall]. cbn. apply IH; [exact Hall|].
    apply flushed_tick. exact Hw.
Qed.

Lemma waiting_run ticks w :
  Forall is_tick ticks -> waiting p t1 c0 w \/ flushed p c0 w ->
  (exists t, In (TickIn t) ticks /\ (t1 + 1000 <= t)%Z) ->
  flushed p c0 (run env ticks w).
Proof.
  revert w. induction ticks as [|[ev t|t] ticks IH]; intros w Hall Hw [t' [Hin Ht']].
  - destruct Hin.
  - apply Forall_cons in Hall as [[] _].
  - apply Forall_cons in Hall as [_ Hall]. cbn.
    destruct (waiting_tick w t Hw) as [Hw' Hf'].
    destruct Hin as [Heq|Hin].
    + injection Heq as ->. apply flushed_run; [exact Hall|]. apply Hf'. exact Ht'.
    + apply IH; [exact Hall|exact Hw'|]. exists t'. auto.
Qed.
End Burst.

(** C5 (debounce). For an event path the watcher handles as a source
    file (under the root, not gitignored, supported extension): a Write
    or Create event at time [t] sets its deadline to [t + 500] and does
    nothing else; a tick at time [t] removes exactly the entries whose
    deadline is before [t] and re-indexes each of them once; and a burst
    of Write/Create events on the file within 500 ms of the first one,
    interleaved with ticks, followed by ticks of which one comes at least
    1000 ms after the first event, re-indexes the file exactly once and
    leaves it no longer pending. *)
Theorem watcher_debounce_once (env : WatchEnv) (p : string)
  (Hsrc : watched_source env p = true) :
  (forall t op w, write_or_create op = true ->
     pendingFiles (handleEvent env t (mkEvent p op) w) = <[p := (t + 500)%Z]> (pendingFiles w)
     /\ actions (handleEvent env t (mkEvent p op) w) = actions w)
  /\ (forall t w k,
     pendingFiles (processPendingFiles t w) !! k =
       match pendingFiles w !! k with
       | Some d => if bool_decide (d < t)%Z then None else Some d
       | None => None
       end
     /\ reindex_count k (processPendingFiles t w) =
       (reindex_count k w +
        match pendingFiles w !! k with
        | Some d => if bool_decide (d < t)%Z then 1 else 0
        | None => 0
        end)%nat)
  /\ (forall t1 op1 burst ticks w,
     write_or_create op1 = true ->
     Forall (burst_input p t1) burst ->
     Forall is_tick ticks ->
     (exists t, In (TickIn t) ticks /\ (t1 + 1000 <= t)%Z) ->
     reindex_count p (run env (EvIn (mkEvent p op1) t1 :: app burst ticks) w) = S (reindex_count p w)
     /\ pendingFiles (run env (EvIn (mkEvent p op1) t1 :: app burst ticks) w) !! p = None).
Proof.
  split; [|split].
  - intros t op w Hop. rewrite handleEvent_source by assumption. split; reflexivity.
  - intros t w k. split; [apply process_lookup|apply process_count].
  - intros t1 op1 burst ticks w Hop Hburst Hticks Hlate.
    assert (Hw1 : in_burst p t1 (reindex_count p w) (step env w (EvIn (mkEvent p op1) t1))).
    { cbn. rewrite handleEvent_source by assumption. split; [|reflexivity].
      exists (t1 + debounceTime)%Z. cbn. rewrite lookup_insert_eq.
      unfold debounceTime. split; [reflexivity|lia]. }
    pose proof (burst_run env p Hsrc t1 (reindex_count p w) burst _ Hburst Hw1) as Hb.
    assert (Hwait : waiting p t1 (reindex_count p w) (run env burst (step env w (EvIn (mkEvent p op1) t1)))).
    { destruct Hb as [[d [Hd Hr]] Hc]. split; [|exact Hc]. exists d. split; [exact Hd|lia]. }
    pose proof (waiting_run env p t1 (reindex_count p w) ticks _ Hticks (or_introl Hwait) Hlate) as [Hn Hc].
    unfold run in Hn, Hc |- *. cbn [fold_left]. rewrite fold_left_app.
    split; assumption.
Qed.

Lemma watcher_debounce_once_witness :
  watched_source gen_env "/w/a.go" = true /\
  reindex_count "/w/a.go"
    (run gen_env
       [EvIn (mkEvent "/w/a.go" OpWrite) 0; TickIn 100; EvIn (mkEvent "/w/a.go" OpWrite) 150;
        TickIn 200; EvIn (mkEvent "/w/a.go" OpCreate) 400;
        TickIn 500; TickIn 700; TickIn 1000]
       (mkWatcher ∅ [])) = 1%nat.
Proof.
  split; [reflexivity|].
  destruct (watcher_debounce_once gen_env "/w/a.go" eq_refl) as [_ [_ H]].
  refine (proj1 (H 0%Z OpWrite
    [TickIn 100; EvIn (mkEvent "/w/a.go" OpWrite) 150; TickIn 200; EvIn (mkEvent "/w/a.go" OpCreate) 400; TickIn 500]
    [TickIn 700; TickIn 1000] (mkWatcher ∅ []) eq_refl _ _ _)).
  - repeat constructor; cbn; lia.
  - repeat constructor.
  - exists 1000%Z. split; [cbn; tauto|lia].
Defined.

(** ** Proofs about Enrich *)

Lemma str_app_assoc (a b c : string) : (a ++ b) ++ c = a ++ (b ++ c).
Proof.
  induction a as [|ch a IH]; [reflexivity|].
  change (String ch ((a ++ b) ++ c) = String ch (a ++ b ++ c)). f_equal. exact IH.
Qed.

Lemma str_app_nil_r (a : string) : a ++ "" = a.
Proof.
  induction a as [|ch a IH]; [reflexivity|].
  change (String ch (a ++ "") = String ch a). f_equal. exact IH.
Qed.

Lemma concat_substring (sep x : string) (l : list string) :
  In x l -> substring_of x (String.concat sep l).
Proof.
  induction l as [|y l IH]; intros Hin; [destruct Hin|].
  destruct Hin as [->|Hin].
  - destruct l as [|z l].
    + exists "", "". cbn. rewrite str_app_nil_r. reflexivity.
    + exists "", (sep ++ String.concat sep (z :: l)). reflexivity.
  - destruct l as [|z l]; [destruct Hin|].
    destruct (IH Hin) as [a [b Hab]].
    exists (y ++ sep ++ a), b. change (String.concat sep (y :: z :: l)) with (y ++ sep ++ String.concat sep (z :: l)).
    rewrite Hab, !str_app_assoc. reflexivity.
Qed.

Lemma substring_of_app_l (x a b : string) : substring_of x a -> substring_of x (a ++ b).
Proof. intros [u [v ->]]. exists u, (v ++ b). rewrite !str_app_assoc. reflexivity. Qed.

Lemma substring_of_app_r (x a b : string) : substring_of x b -> substring_of x (a ++ b).
Proof. intros [u [v ->]]. exists (a ++ u), v. rewrite !str_app_assoc. reflexivity. Qed.

Lemma has_spec (l : list string) (x : string) : has l x = true <-> In x l.
Proof.
  unfold has. rewrite bool_decide_eq_true. apply list_elem_of_In.
Qed.

Lemma detectRequiredLanguages_elem (ns : list Node) (n : Node) :
  In n ns -> getLang (FilePath n) <> "" -> In (getLang (FilePath n)) (detectRequiredLanguages ns).
Proof.
  unfold detectRequiredLanguages.
  assert (Hmono : forall l acc x, In x acc -> In x (fold_left detect_step l acc)).
  { induction l as [|m l IH]; intros acc x Hx; cbn; [exact Hx|]. apply IH.
    unfold detect_step.
    destruct (String.eqb (getLang (FilePath m)) "" || has acc (getLang (FilePath m))); [exact Hx|].
    apply in_or_app. left. exact Hx. }
  generalize (@nil string) as acc. induction ns as [|m ns IH]; intros acc Hin Hne; [destruct Hin|].
  cbn. destruct Hin as [->|Hin]; [|apply IH; assumption].
  apply Hmono. unfold detect_step. destruct (String.eqb (getLang (FilePath n)) "") eqn:He.
  { apply String.eqb_eq in He. contradiction. }
  cbn. destruct (has acc (getLang (FilePath n))) eqn:Hh.
  - apply has_spec. exact Hh.
  - apply in_or_app. right. left. reflexivity.
Qed.

Lemma pick_nonempty (custom default : string) :
  default <> "" ->
  (if String.eqb (TrimSpace custom) "" then default else TrimSpace custom) <> "".
Proof.
  intros Hd. destruct (String.eqb (TrimSpace custom) "") eqn:He; [exact Hd|].
  intros Heq. rewrite Heq in He. discriminate.
Qed.

Lemma getLang_cases (path : string) :
  getLang path = "" \/ getLang path = "go" \/ getLang path = "python" \/
  getLang path = "javascript" \/ getLang path = "typescript" \/
  getLang path = "lua" \/ getLang path = "zig".
Proof.
  unfold getLang. repeat (match goal with |- context [if ?b then _ else _] => destruct b end); tauto.
Qed.

Lemma getLang_command (cfg : ServiceConfig) (path : string) :
  getLang path <> "" ->
  getLanguageServerCommand cfg (getLang path) <> "" /\
  getLanguageServerInstallInstructions (getLang path) <> "".
Proof.
  intros Hne. unfold getLanguageServerCommand.
  destruct (getLang_cases path) as [H|[H|[H|[H|[H|[H|H]]]]]]; rewrite H in *; [contradiction|..];
    cbn; (split; [apply pick_nonempty; discriminate|discriminate]).
Qed.

Section Validate.
Variable cfg : ServiceConfig.
Variable lookPath : string -> bool.

Lemma validate_step_mono acc lang :
  (forall x, In x acc.1 -> In x (validate_step cfg lookPath acc lang).1) /\
  (forall x, In x acc.2 -> In x (validate_step cfg lookPath acc lang).2).
Proof.
  destruct acc as [miss instrs]. unfold validate_step.
  destruct (String.eqb _ ""); [cbn; auto|]. destruct (lookPath _); [cbn; auto|].
  cbn. split; intros x Hx; [apply in_or_app; auto|].
  destruct (String.eqb _ ""); [exact Hx|apply in_or_app; auto].
Qed.

Lemma validate_fold_mono langs acc :
  (forall x, In x acc.1 -> In x (fold_left (validate_step cfg lookPath) langs acc).1) /\
  (forall x, In x acc.2 -> In x (fold_left (validate_step cfg lookPath) langs acc).2).
Proof.
  revert acc. induction langs as [|l langs IH]; intros acc; cbn; [auto|].
  destruct (validate_step_mono acc l) as [H1 H2]. destruct (IH (validate_step cfg lookPath acc l)) as [H3 H4].
  auto.
Qed.

Lemma validate_fold_missing langs acc lang :
  In lang langs -> getLanguageServerCommand cfg lang <> "" ->
  lookPath (getLanguageServerCommand cfg lang) = false ->
  In lang (fold_left (validate_step cfg lookPath) langs acc).1 /\
  (getLanguageServerInstallInstructions lang <> "" ->
   In ("  " ++ lang ++ ": " ++ getLanguageServerInstallInstructions lang)
      (fold_left (validate_step cfg lookPath) langs acc).2).
Proof.
  revert acc. induction langs as [|l langs IH]; intros acc Hin Hc Hl; [destruct Hin|].
  cbn. destruct Hin as [->|Hin]; [|apply IH; assumption].
  destruct (validate_fold_mono langs (validate_step cfg lookPath acc lang)) as [M1 M2].
  destruct acc as [miss instrs]. unfold validate_step in M1, M2 |- *.
  destruct (String.eqb (getLanguageServerCommand cfg lang) "") eqn:He.
  { apply String.eqb_eq in He. contradiction. }
  rewrite Hl in M1, M2 |- *. split.
  - apply M1. cbn. apply in_or_app. right. left. reflexivity.
  - intros Hi. apply M2. cbn. destruct (String.eqb (getLanguageServerInstallInstructions lang) "") eqn:Hi'.
    + apply String.eqb_eq in Hi'. contradiction.
    + apply in_or_app. right. left. reflexivity.
Qed.

Lemma validate_unfold langs :
  validateLanguageServers cfg lookPath langs =
  let '(miss, instrs) := fold_left (validate_step cfg lookPath) langs ([], []) in
  match miss with
  | [] => None
  | m0 :: _ =>
      let c := getLanguageServerCommand cfg m0 in
      Some (mkMissingServers miss instrs (if String.eqb c "" then "gopls" else c))
  end.
Proof. reflexivity. Qed.
End Validate.

Lemma missing_message_missing (m : MissingServers) (x : string) :
  In x (missing m) -> substring_of x (missing_message m).
Proof.
  intros Hx. unfold missing_message. apply substring_of_app_r, substring_of_app_l.
  apply concat_substring. exact Hx.
Qed.

Lemma missing_message_instruction (m : MissingServers) (x : string) :
  In x (instructions m) -> substring_of x (missing_message m).
Proof.
  intros Hx. unfold missing_message.
  do 12 apply substring_of_app_r. apply substring_of_app_l.
  apply concat_substring. exact Hx.
Qed.

(** C4 (missing servers are fatal, and no partial success). Whatever
    the batch and the world, an error comes with no edges, and a
    success returns every edge the workers collected (or none, when no
    node has a supported language). If some node's language has a
    server command that [exec.LookPath] does not find, Enrich fails
    with the missing-servers error, returns no edges and leaves the
    world as it was; the error lists that language and its install
    instruction, and both occur in its message. *)
Theorem Enrich_missing_server_fatal :
  (forall env ns w,
     match Enrich env ns w with
     | ((edges, Some _), _) => edges = []
     | ((edges, None), _) =>
         (detectRequiredLanguages ns = [] /\ edges = []) \/
         exists langServers w1,
           detectAndStartLanguageServers env ns w = (langServers, w1) /\ langServers <> [] /\
           edges = collected (fold_left (enrich_node env) ns (mkWorkState [] w1 []))
     end)
  /\ (forall env ns w n,
     In n ns -> getLang (FilePath n) <> "" ->
     lookPath env (getLanguageServerCommand (config env) (getLang (FilePath n))) = false ->
     let lang := getLang (FilePath n) in
     let instruction := "  " ++ lang ++ ": " ++ getLanguageServerInstallInstructions lang in
     exists m, Enrich env ns w = (([], Some (ErrMissingServers m)), w)
       /\ In lang (missing m) /\ In instruction (instructions m)
       /\ substring_of lang (enrich_error_message (ErrMissingServers m))
       /\ substring_of instruction (enrich_error_message (ErrMissingServers m))).
Proof.
  split.
  - intros env ns w. unfold Enrich.
    destruct (detectRequiredLanguages ns) as [|l0 ls] eqn:Hd; [left; auto|].
    destruct (validateLanguageServers (config env) (lookPath env) (l0 :: ls)); [reflexivity|].
    destruct (detectAndStartLanguageServers env ns w) as [[|s0 ss] w1] eqn:Hs; [reflexivity|].
    right. exists (s0 :: ss), w1. split; [reflexivity|]. split; [discriminate|reflexivity].
  - intros env ns w n Hin Hne Hmiss lang instruction.
    destruct (getLang_command (config env) (FilePath n) Hne) as [Hc Hi].
    pose proof (detectRequiredLanguages_elem ns n Hin Hne) as Hl.
    destruct (validate_fold_missing (config env) (lookPath env) (detectRequiredLanguages ns) ([], [])
                (getLang (FilePath n)) Hl Hc Hmiss) as [H1 H2].
    specialize (H2 Hi).
    unfold Enrich, validateLanguageServers.
    destruct (fold_left (validate_step (config env) (lookPath env)) (detectRequiredLanguages ns) ([], []))
      as [miss instrs] eqn:Hf.
    cbn in H1, H2. destruct miss as [|m0 miss']; [destruct H1|].
    destruct (detectRequiredLanguages ns) as [|l0 ls]; [destruct Hl|].
    eexists. split; [reflexivity|]. cbn [missing instructions].
    split; [exact H1|]. split; [exact H2|]. split.
    + apply missing_message_missing. exact H1.
    + apply missing_message_instruction. exact H2.
Qed.

Lemma Enrich_missing_server_fatal_witness :
  Enrich no_servers_env [helper_node] empty_world =
  (([], Some (ErrMissingServers
               (mkMissingServers ["go"] ["  go: go install golang.org/x/tools/gopls@latest"] "gopls"))),
   empty_world)
  /\ exists m, Enrich no_servers_env [helper_node] empty_world = (([], Some (ErrMissingServers m)), empty_world)
       /\ In "go" (missing m).
Proof.
  split; [vm_compute; reflexivity|].
  destruct (proj2 Enrich_missing_server_fatal no_servers_env [helper_node] empty_world helper_node
              (or_introl eq_refl) ltac:(vm_compute; discriminate) eq_refl)
    as [m [Hm [Hin _]]].
  exists m. split; [exact Hm|exact Hin].
Defined.

Lemma FindNode_stored (s : Store) (path : string) (line col : Z) (x : Node) :
  FindNode s path line col = Ok (Some x) -> is_Some (nodes s !! ID x).
Proof.
  unfold FindNode. intros Hx. injection Hx as Hx.
  assert (Hgen : forall l best,
    (forall kr, In kr l -> nodes s !! kr.1 = Some kr.2) ->
    (forall b, best = Some b -> is_Some (nodes s !! ID b)) ->
    forall b, fold_left (find_step path line) l best = Some b -> is_Some (nodes s !! ID b)).
  { induction l as [|kr l IH]; intros best Hl Hbest b Hb; cbn [fold_left] in Hb; [exact (Hbest b Hb)|].
    apply (IH (find_step path line best kr) (fun kr' Hin => Hl kr' (or_intror Hin))); [|exact Hb].
    assert (Hkr : is_Some (nodes s !! ID (node_of kr.1 kr.2))).
    { cbn. exists kr.2. apply Hl. left. reflexivity. }
    intros b' Hb'. unfold find_step in Hb'.
    destruct (String.eqb _ path && _ && _); [|exact (Hbest b' Hb')].
    destruct best as [b0|].
    - destruct (_ && _); [injection Hb' as <-; exact Hkr|exact (Hbest b' Hb')].
    - injection Hb' as <-. exact Hkr. }
  apply (Hgen (map_to_list (nodes s)) None); [|discriminate|exact Hx].
  intros [k r] Hin. apply elem_of_map_to_list, list_elem_of_In. exact Hin.
Qed.

Lemma resolve_edges_spec (s : Store) (n : Node) (relation : string) (locs : option (list Location)) (e : Edge) :
  In e (resolve_edges s n relation locs) ->
  TargetID e = ID n /\ is_Some (nodes s !! SourceID e).
Proof.
  destruct locs as [ls|]; cbn; [|intros []].
  assert (Hgen : forall ls acc,
    (forall e, In e acc -> TargetID e = ID n /\ is_Some (nodes s !! SourceID e)) ->
    In e (fold_left (resolve_step s n relation) ls acc) ->
    TargetID e = ID n /\ is_Some (nodes s !! SourceID e)).
  { induction ls0 as [|loc ls0 IH]; intros acc Hacc Hin; cbn [fold_left] in Hin; [exact (Hacc e Hin)|].
    apply (IH (resolve_step s n relation acc loc)); [|exact Hin].
    unfold resolve_step.
    destruct (FindNode s _ _ _) as [[src|]|msg] eqn:Hf; [|exact Hacc|exact Hacc].
    destruct (String.eqb (ID src) (ID n)); [exact Hacc|].
    intros e' He'. apply in_app_or in He' as [He'|[<-|[]]]; [exact (Hacc e' He')|].
    cbn. split; [reflexivity|]. exact (FindNode_stored _ _ _ _ _ Hf). }
  apply Hgen. intros _ [].
Qed.

Lemma StartClient_db (env : LspEnv) (lang : string) (w : LspWorld) :
  db (StartClient env lang w).2 = db w.
Proof.
  unfold StartClient. destruct (has (clients w) lang); [reflexivity|].
  destruct (start_outcome env lang); reflexivity.
Qed.

Lemma detectAndStart_db (env : LspEnv) (ns : list Node) (w : LspWorld) :
  db (detectAndStartLanguageServers env ns w).2 = db w.
Proof.
  unfold detectAndStartLanguageServers.
  assert (Hgen : forall langs acc, db (fold_left (start_step env) langs acc).2 = db acc.2).
  { induction langs as [|lang langs IH]; intros [started w']; cbn [fold_left]; [reflexivity|].
    rewrite IH. unfold start_step.
    destruct (String.eqb _ ""); [reflexivity|].
    pose proof (StartClient_db env lang w') as Hdb.
    destruct (StartClient env lang w') as [ok w'']. exact Hdb. }
  apply Hgen.
Qed.

Lemma enrich_node_inv (env : LspEnv) (s0 : Store) (ns : list Node) (st : WorkState) (n : Node) :
  In n ns ->
  db (world st) = s0 ->
  (forall e, In e (collected st) -> (exists m, In m ns /\ TargetID e = ID m) /\ is_Some (nodes s0 !! SourceID e)) ->
  db (world (enrich_node env st n)) = s0 /\
  (forall e, In e (collected (enrich_node env st n)) ->
     (exists m, In m ns /\ TargetID e = ID m) /\ is_Some (nodes s0 !! SourceID e)).
Proof.
  intros Hn Hdb Hcol. unfold enrich_node.
  destruct (negb (has (clients (world st)) (getLang (FilePath n)))); [auto|].
  set (st' := if has (opened st) (PathToURI (FilePath n)) then Some st else _).
  assert (Hst' : forall st'', st' = Some st'' ->
            db (world st'') = s0 /\ collected st'' = collected st).
  { intros st'' Heq. subst st'.
    destruct (has (opened st) _); [injection Heq as <-; auto|].
    destruct (readFile env (FilePath n)); [|discriminate].
    destruct (didOpen_ok env _); [|discriminate]. injection Heq as <-. cbn. auto. }
  destruct st' as [st''|]; [|auto].
  destruct (Hst' st'' eq_refl) as [Hdb'' Hcol''].
  destruct (String.eqb (Name n) "" || negb (isDefinitionKind (Kind n))).
  - split; [exact Hdb''|]. rewrite Hcol''. exact Hcol.
  - cbn. split; [exact Hdb''|]. intros e He. rewrite Hcol'' in He.
    apply in_app_or in He as [He|He]; [exact (Hcol e He)|].
    assert (Hr : TargetID e = ID n /\ is_Some (nodes (db (world st)) !! SourceID e)).
    { apply in_app_or in He as [He|He].
      - exact (resolve_edges_spec _ _ _ _ _ He).
      - destruct (isInterfaceKind (Kind n)); [|destruct He].
        exact (resolve_edges_spec _ _ _ _ _ He). }
    rewrite Hdb in Hr. destruct Hr as [Ht Hs]. split; [exists n; auto|exact Hs].
Qed.

Lemma enrich_fold_inv (env : LspEnv) (s0 : Store) (ns : list Node) (l : list Node) (st : WorkState) :
  (forall n, In n l -> In n ns) ->
  db (world st) = s0 ->
  (forall e, In e (collected st) -> (exists m, In m ns /\ TargetID e = ID m) /\ is_Some (nodes s0 !! SourceID e)) ->
  db (world (fold_left (enrich_node env) l st)) = s0 /\
  (forall e, In e (collected (fold_left (enrich_node env) l st)) ->
     (exists m, In m ns /\ TargetID e = ID m) /\ is_Some (nodes s0 !! SourceID e)).
Proof.
  revert st. induction l as [|n l IH]; intros st Hl Hdb Hcol; cbn; [auto|].
  destruct (enrich_node_inv env s0 ns st n (Hl n (or_introl eq_refl)) Hdb Hcol) as [H1 H2].
  apply IH; [intros m Hm; apply Hl; right; exact Hm|exact H1|exact H2].
Qed.

(** C10 (Enrich leaves the graph store alone). Whatever the batch, the
    world and the outside world, the store after Enrich is the store
    before it; every edge Enrich returns points at a node of the batch
    and comes from a node stored in that store, found through the
    read-only resolver. *)
Theorem Enrich_store_unchanged (env : LspEnv) (ns : list Node) (w : LspWorld) :
  db (Enrich env ns w).2 = db w /\
  (forall e, In e (Enrich env ns w).1.1 ->
     (exists m, In m ns /\ TargetID e = ID m) /\ is_Some (nodes (db w) !! SourceID e)).
Proof.
  unfold Enrich.
  destruct (detectRequiredLanguages ns) as [|l0 ls]; [cbn; split; [reflexivity|intros _ []]|].
  destruct (validateLanguageServers _ _ _); [cbn; split; [reflexivity|intros _ []]|].
  pose proof (detectAndStart_db env ns w) as Hdb.
  destruct (detectAndStartLanguageServers env ns w) as [langServers w1]. cbn in Hdb.
  destruct langServers as [|s0 ss]; [cbn; split; [exact Hdb|intros _ []]|].
  destruct (enrich_fold_inv env (db w) ns ns (mkWorkState [] w1 []) (fun n H => H) Hdb
              (fun e He => match He with end)) as [H1 H2].
  cbn. split; [exact H1|exact H2].
Qed.

(** ** Proofs about the reader *)

(** C8 (counterexample). The reader fails with [io.ErrUnexpectedEOF]
    and publishes it: the first later call gets it, the second times
    out. The reader reaches [io.EOF]: nothing is published and a later
    call times out. *)
Lemma readLoop_error_not_sticky :
  calls_after_reader [None; None] (readLoop_error (ReadFailure "unexpected EOF") (mkLspClient None true))
  = [CallServerErr (ReadFailure "unexpected EOF"); CallTimeout]
  /\ calls_after_reader [None] (readLoop_error EOF (mkLspClient None true)) = [CallTimeout]
  /\ call_error_message CallTimeout = "LSP call timeout: context deadline exceeded".
Proof. vm_compute. repeat split. Qed.

Lemma calls_after_reader_spec (writes : list (option string)) (c : LspClient) :
  calls_after_reader writes c = expected_calls (errChan c) writes.
Proof.
  revert c. induction writes as [|[msg|] ws IH]; intros c; cbn; [reflexivity| |].
  - f_equal. apply IH.
  - destruct (errChan c) as [e|] eqn:He; cbn; f_equal; rewrite IH; [reflexivity|rewrite He; reflexivity].
Qed.

(** C8 (what holds). A read error other than [io.EOF] whose text does
    not contain "closed" is put on the empty one-slot channel; [io.EOF]
    and "closed" errors are not; the reader stops either way. From then
    on a call whose write fails returns the write error, the first call
    whose write succeeds returns the published error if there is one
    (and takes it off the channel), and every other call times out. *)
Theorem readLoop_error_calls (e : ReadErr) (c : LspClient) (writes : list (option string))
  (Hempty : errChan c = None) :
  reading (readLoop_error e c) = false /\
  errChan (readLoop_error e c) = (if publishes e then Some e else None) /\
  calls_after_reader writes (readLoop_error e c)
  = expected_calls (if publishes e then Some e else None) writes.
Proof.
  assert (Hch : errChan (readLoop_error e c) = (if publishes e then Some e else None)).
  { cbn. rewrite Hempty. destruct (publishes e); reflexivity. }
  split; [reflexivity|]. split; [exact Hch|].
  rewrite calls_after_reader_spec, Hch. reflexivity.
Qed.

Lemma readLoop_error_calls_witness :
  errChan (mkLspClient None true) = None /\
  calls_after_reader [Some "write |1: broken pipe"; None; None]
    (readLoop_error (ReadFailure "unexpected EOF") (mkLspClient None true))
  = [CallWriteErr "write |1: broken pipe"; CallServerErr (ReadFailure "unexpected EOF"); CallTimeout].
Proof.
  split; [reflexivity|].
  rewrite (proj2 (proj2 (readLoop_error_calls (ReadFailure "unexpected EOF") (mkLspClient None true)
                           [Some "write |1: broken pipe"; None; None] eq_refl))).
  vm_compute. reflexivity.
Defined.

(** The watcher's directory filter skips [__pycache__], [node_modules],
    [vendor] and dot directories, unlike the scanner's. *)
Lemma watcher_skips_pycache :
  watcher_enters_dir None "__pycache__" "__pycache__" = false /\
  scan_enters_dir None "__pycache__" "__pycache__" = true.
Proof. split; reflexivity. Qed.

(** ** Further properties of the store, the tools, the watcher, the scanner and Enrich *)

Lemma select_nodes_elem P s n :
  n ∈ select_nodes P s <->
  exists r, nodes s !! ID n = Some r /\ n = node_of (ID n) r /\ P r = true.
Proof.
  unfold select_nodes. rewrite list_elem_of_fmap. split.
  - intros ([k r] & -> & Hin). rewrite list_elem_of_In, filter_In, <- list_elem_of_In in Hin.
    destruct Hin as [Hin HP]. apply elem_of_map_to_list in Hin. simpl in *. exists r. done.
  - intros (r & Hl & Hn & HP). exists (ID n, r). split; [done|].
    rewrite list_elem_of_In, filter_In, <- list_elem_of_In. split; [|done]. by apply elem_of_map_to_list.
Qed.

Lemma NoDup_fst_list_filter {B} (f : string * B -> bool) (l : list (string * B)) :
  NoDup (map fst l) -> NoDup (map fst (List.filter f l)).
Proof.
  induction l as [|[k v] l IH]; [intros _; constructor|].
  cbn [map fst List.filter]. rewrite NoDup_cons. intros [Hk Hl].
  destruct (f (k, v)); cbn; [|auto].
  constructor; [|auto].
  intros Hin. apply Hk. rewrite list_elem_of_In in Hin |- *.
  apply in_map_iff in Hin as [[k' v'] [Hk' Hin]]. apply filter_In in Hin as [Hin _].
  apply in_map_iff. exists (k', v'). auto.
Qed.

Lemma select_nodes_NoDup P s : NoDup (map ID (select_nodes P s)).
Proof.
  unfold select_nodes. rewrite map_map. simpl.
  apply NoDup_fst_list_filter, NoDup_fst_map_to_list.
Qed.


Lemma merge_sort_elem {A} (R : relation A) `{!RelDecision R} (l : list A) x :
  x ∈ merge_sort R l <-> x ∈ l.
Proof. by rewrite (merge_sort_Permutation R l). Qed.

Lemma merge_sort_NoDup_ID (R : relation Node) `{!RelDecision R} l :
  NoDup (map ID l) -> NoDup (map ID (merge_sort R l)).
Proof. intros H. by rewrite (merge_sort_Permutation R l). Qed.

(** [GetSymbolLocation] returns exactly the stored nodes with that
    name, each once, ordered by file path. *)
Lemma GetSymbolLocation_spec s name :
  exists res, GetSymbolLocation s name = Ok res /\
    NoDup (map ID res) /\ Sorted path_le res /\
    forall n, n ∈ res <->
      exists r, nodes s !! ID n = Some r /\ n = node_of (ID n) r /\ r_name r = name.
Proof.
  eexists. split; [reflexivity|]. split; [apply merge_sort_NoDup_ID, select_nodes_NoDup|].
  split; [apply Sorted_merge_sort, path_le_total|].
  intros n. rewrite merge_sort_elem, select_nodes_elem.
  setoid_rewrite String.eqb_eq. done.
Qed.

Lemma GetSymbolsInFile_spec s path :
  exists res, GetSymbolsInFile s path = Ok res /\
    NoDup (map ID res) /\ Sorted line_le res /\
    forall n, n ∈ res <->
      exists r, nodes s !! ID n = Some r /\ n = node_of (ID n) r /\ r_file_path r = path.
Proof.
  eexists. split; [reflexivity|]. split; [apply merge_sort_NoDup_ID, select_nodes_NoDup|].
  split; [apply Sorted_merge_sort, line_le_total|].
  intros n. rewrite merge_sort_elem, select_nodes_elem.
  setoid_rewrite String.eqb_eq. done.
Qed.

Lemma sym_loc_elem s name n :
  n ∈ merge_sort path_le (select_nodes (fun r => String.eqb (r_name r) name) s) <->
  exists r, nodes s !! ID n = Some r /\ n = node_of (ID n) r /\ r_name r = name.
Proof. rewrite merge_sort_elem, select_nodes_elem. by setoid_rewrite String.eqb_eq. Qed.

Lemma sym_file_elem s path n :
  n ∈ merge_sort line_le (select_nodes (fun r => String.eqb (r_file_path r) path) s) <->
  exists r, nodes s !! ID n = Some r /\ n = node_of (ID n) r /\ r_file_path r = path.
Proof. rewrite merge_sort_elem, select_nodes_elem. by setoid_rewrite String.eqb_eq. Qed.

Lemma node_of_row_of n now : node_of (ID n) (row_of n now) = n.
Proof. by destruct n. Qed.

(** [UpsertNode] then reading back: the node is returned by
    [GetSymbolLocation] for its name and by [GetSymbolsInFile] for its
    file; the rows under other ids and the edges are left as they were. *)
Lemma UpsertNode_read_back now n s :
  (exists res, GetSymbolLocation (UpsertNode now n s) (Name n) = Ok res /\ n ∈ res) /\
  (exists res, GetSymbolsInFile (UpsertNode now n s) (FilePath n) = Ok res /\ n ∈ res) /\
  (forall k, k <> ID n -> nodes (UpsertNode now n s) !! k = nodes s !! k) /\
  edges (UpsertNode now n s) = edges s.
Proof.
  split; [|split; [|split]].
  - eexists. split; [reflexivity|]. apply sym_loc_elem. exists (row_of n now).
    simpl. rewrite lookup_insert_eq, node_of_row_of. done.
  - eexists. split; [reflexivity|]. apply sym_file_elem. exists (row_of n now).
    simpl. rewrite lookup_insert_eq, node_of_row_of. done.
  - intros k Hk. simpl. by rewrite lookup_insert_ne by congruence.
  - done.
Qed.

Lemma UpsertEdge_no_fk_eq e s :
  foreign_keys s = false ->
  UpsertEdge e s = (if bool_decide (e ∈ edges s) then Ok s
                    else Ok (mkStore (nodes s) (app (edges s) [e]) (foreign_keys s))).
Proof. intros Hfk. unfold UpsertEdge. by rewrite Hfk. Qed.

(** [UpsertEdge] on a connection without foreign-key enforcement: it
    always succeeds, adds the edge to the edge set (keeping it free of
    duplicates), leaves the nodes alone, and a second identical upsert
    changes nothing. *)
Lemma UpsertEdge_no_fk_idempotent e s :
  foreign_keys s = false ->
  exists s', UpsertEdge e s = Ok s' /\ nodes s' = nodes s /\ foreign_keys s' = false /\
    (forall e', e' ∈ edges s' <-> e' = e \/ e' ∈ edges s) /\
    (NoDup (edges s) -> NoDup (edges s')) /\
    UpsertEdge e s' = Ok s'.
Proof.
  intros Hfk. rewrite UpsertEdge_no_fk_eq by done.
  destruct (bool_decide (e ∈ edges s)) eqn:Hin.
  - apply bool_decide_eq_true in Hin. exists s. split; [done|]. split; [done|].
    split; [done|]. split; [intros e'; split; [auto|intros [->|H]; auto]|].
    split; [done|]. rewrite UpsertEdge_no_fk_eq by done. by rewrite bool_decide_eq_true_2.
  - apply bool_decide_eq_false in Hin.
    eexists. split; [reflexivity|]. simpl. split; [done|]. split; [done|].
    assert (Hel : forall e', e' ∈ app (edges s) [e] <-> e' = e \/ e' ∈ edges s).
    { intros e'. rewrite elem_of_app, list_elem_of_singleton. tauto. }
    split; [exact Hel|]. split.
    + intros Hnd. apply NoDup_app. split; [done|]. split; [|apply NoDup_singleton].
      intros x Hx Hx'. apply list_elem_of_singleton in Hx'. subst. done.
    + rewrite UpsertEdge_no_fk_eq by done. simpl.
      rewrite bool_decide_eq_true_2; [done|]. apply Hel. auto.
Qed.

Lemma UpsertEdge_no_fk_idempotent_witness :
  foreign_keys chain_store = false /\
  exists s', UpsertEdge ref_edge chain_store = Ok s' /\ nodes s' = nodes chain_store /\
    foreign_keys s' = false /\
    (forall e', e' ∈ edges s' <-> e' = ref_edge \/ e' ∈ edges chain_store) /\
    (NoDup (edges chain_store) -> NoDup (edges s')) /\
    UpsertEdge ref_edge s' = Ok s'.
Proof.
  split; [reflexivity|]. apply UpsertEdge_no_fk_idempotent. reflexivity.
Defined.


Lemma prune_loop_no_fk (keep : string -> bool) (F : list string) s :
  foreign_keys s = false ->
  edges (fold_left (fun st file => if keep file then st else DeleteNodesByFile file st) F s) = edges s /\
  foreign_keys (fold_left (fun st file => if keep file then st else DeleteNodesByFile file st) F s) = false.
Proof.
  revert s. induction F as [|f F IH]; intros s Hfk; simpl; [done|].
  destruct (keep f).
  - by apply IH.
  - destruct (IH (DeleteNodesByFile f s)) as [H1 H2]; [done|].
    rewrite H1, DeleteNodesByFile_edges_no_fk by done. done.
Qed.

(** [PruneStaleFiles] leaves exactly the files of the store that are in
    [foundFilePaths]; without foreign-key enforcement it leaves the edge
    table unchanged. *)
Lemma PruneStaleFiles_files found s :
  store_files (PruneStaleFiles found s) = store_files s ∩ list_to_set found /\
  (foreign_keys s = false -> edges (PruneStaleFiles found s) = edges s).
Proof.
  split.
  - apply set_eq. intros p. rewrite elem_of_intersection, elem_of_list_to_set, !store_files_elem.
    setoid_rewrite PruneStaleFiles_lookup. split.
    + intros (k & r & [Hk Hf] & <-). eauto.
    + intros [(k & r & Hk & <-) Hf]. eauto.
  - intros Hfk. unfold PruneStaleFiles. by apply prune_loop_no_fk.
Qed.










Lemma handleEvent_remove env (p : string) (t op : Z) (w : Watcher) :
  watched_source env p = true -> write_or_create op = false ->
  (has_op op OpRemove || has_op op OpRename)%bool = true ->
  handleEvent env t (mkEvent p op) w = log_action (DeleteFile p) w.
Proof.
  unfold watched_source, handleEvent, write_or_create. cbn.
  destruct (rel_path (w_root env) p) as [r|]; [|discriminate].
  destruct (match w_gitignore env with Some m => m r | None => false end); [discriminate|].
  cbn. intros Hs Hop Hrr. rewrite Hs. cbn.
  apply orb_false_iff in Hop as [-> ->].
  destruct (has_op op OpRemove); [reflexivity|]. cbn in Hrr. rewrite Hrr. reflexivity.
Qed.

(** A watched source file written and then removed before its
    debounce deadline is removed from the index at the Remove event and
    still re-indexed by the next tick after the deadline: the removal
    does not cancel the pending re-index. *)
Lemma remove_keeps_pending_reindex env (p : string) (t1 t2 t3 : Z) (w : Watcher) :
  watched_source env p = true -> pendingFiles w = ∅ -> (t1 + debounceTime < t3)%Z ->
  actions (run env [EvIn (mkEvent p OpWrite) t1; EvIn (mkEvent p OpRemove) t2; TickIn t3] w)
    = app (actions w) [DeleteFile p; Reindex p] /\
  pendingFiles (run env [EvIn (mkEvent p OpWrite) t1; EvIn (mkEvent p OpRemove) t2; TickIn t3] w) = ∅.
Proof.
  intros Hsrc Hempty Ht. unfold run. cbn [fold_left step].
  rewrite (handleEvent_source env p t1 OpWrite) by (done || reflexivity).
  rewrite handleEvent_remove by (done || reflexivity).
  unfold processPendingFiles, log_action, debounceFile. cbn [pendingFiles actions].
  rewrite Hempty, insert_empty. unfold ready_files. rewrite map_to_list_singleton.
  cbn. rewrite decide_True by (cbn; lia). cbn. split.
  - rewrite <- app_assoc. reflexivity.
  - apply map_filter_singleton_False. cbn. lia.
Qed.

Lemma remove_keeps_pending_reindex_witness :
  actions (run gen_env [EvIn (mkEvent "/w/a.go" OpWrite) 0; EvIn (mkEvent "/w/a.go" OpRemove) 100;
                        TickIn 600] (mkWatcher ∅ []))
    = [DeleteFile "/w/a.go"; Reindex "/w/a.go"].
Proof.
  refine (proj1 (remove_keeps_pending_reindex gen_env "/w/a.go" 0 100 600 (mkWatcher ∅ []) _ _ _));
    [vm_compute; reflexivity|reflexivity|unfold debounceTime; lia].
Defined.

Lemma step_pending_watched env (w : Watcher) (i : Input) :
  (forall p d, pendingFiles w !! p = Some d -> watched_source env p = true) ->
  forall p d, pendingFiles (step env w i) !! p = Some d -> watched_source env p = true.
Proof.
  intros Hw p d. destruct i as [ev t|t]; cbn [step].
  - unfold handleEvent. destruct (rel_path (w_root env) (ev_name ev)) as [r|] eqn:Hr; [|apply Hw].
    destruct (match w_gitignore env with Some m => m r | None => false end) eqn:Hg; [apply Hw|].
    destruct (isSourceFile (ev_name ev)) eqn:Hs; cbn.
    + assert (Hdeb : forall t', pendingFiles (debounceFile t' (ev_name ev) w) !! p = Some d ->
                                 watched_source env p = true).
      { intros t' H. cbn in H. destruct (decide (p = ev_name ev)) as [->|Hne].
        - unfold watched_source. rewrite Hr, Hg, Hs. reflexivity.
        - rewrite lookup_insert_ne in H by congruence. eauto. }
      destruct (has_op (ev_op ev) OpWrite); [apply Hdeb|].
      destruct (has_op (ev_op ev) OpCreate); [apply Hdeb|].
      destruct (has_op (ev_op ev) OpRemove); [apply Hw|].
      destruct (has_op (ev_op ev) OpRename); apply Hw.
    + destruct (has_op (ev_op ev) OpCreate && w_is_dir env (ev_name ev))%bool; apply Hw.
  - rewrite process_lookup. destruct (pendingFiles w !! p) eqn:Hp; [|discriminate]. eauto.
Qed.

(** The pending map only ever holds watched source files (under the
    root, not gitignored, with a supported extension): [handleEvent] and
    [processPendingFiles] keep this invariant. *)
Lemma run_pending_watched env (inputs : list Input) (w : Watcher) :
  (forall p d, pendingFiles w !! p = Some d -> watched_source env p = true) ->
  forall p d, pendingFiles (run env inputs w) !! p = Some d -> watched_source env p = true.
Proof.
  unfold run. revert w. induction inputs as [|i inputs IH]; intros w Hw; cbn [fold_left]; [exact Hw|].
  apply IH. by apply step_pending_watched.
Qed.

Lemma run_pending_watched_witness :
  (forall p d, pendingFiles (mkWatcher {["/w/a.go" := 500%Z]} []) !! p = Some d ->
     watched_source gen_env p = true) /\
  forall p d,
    pendingFiles (run gen_env [EvIn (mkEvent "/w/b.go" OpWrite) 100; EvIn (mkEvent "/w/gen.go" OpWrite) 150;
                               EvIn (mkEvent "/w/notes.txt" OpWrite) 200; TickIn 550]
                  (mkWatcher {["/w/a.go" := 500%Z]} [])) !! p = Some d ->
    watched_source gen_env p = true.
Proof.
  assert (H : forall p d, pendingFiles (mkWatcher {["/w/a.go" := 500%Z]} []) !! p = Some d ->
                watched_source gen_env p = true).
  { intros p d Hp. cbn in Hp. apply lookup_singleton_Some in Hp as [<- _]. vm_compute. reflexivity. }
  split; [exact H|]. exact (run_pending_watched gen_env _ _ H).
Defined.



Lemma ScanFile_v1_paths sc fs path name ns :
  ScanFile_v1 sc fs path name = Ok ns -> forall n, In n ns -> FilePath n = path.
Proof.
  unfold ScanFile_v1.
  destruct (negb (has (languages sc) (trim_dot (Ext name)))); [discriminate|].
  destruct (negb (has (queries sc) (trim_dot (Ext name)))); [discriminate|].
  destruct (fs path) as [[pr|]|]; try discriminate.
  intros [= <-] n Hn. apply in_flat_map in Hn as [[m i] [_ Hn]].
  apply in_map_iff in Hn as [c [<- _]]. reflexivity.
Qed.

Lemma upsert_all_other now ns s k :
  (forall n, In n ns -> ID n <> k) -> nodes (upsert_all now ns s) !! k = nodes s !! k.
Proof.
  unfold upsert_all. revert s. induction ns as [|m ns IH]; intros s H; [reflexivity|].
  cbn [fold_left]. rewrite IH by (intros n Hn; apply H; right; exact Hn).
  cbn. apply lookup_insert_ne. intros Heq. apply (H m); [left; reflexivity|congruence].
Qed.







(** A root whose own base name starts with ['.'] (other than ["."] and
    [".gitignore"]) is skipped as a whole: [Scan] returns no node and
    [addDirectoriesRecursively] watches no directory. *)
Lemma hidden_root_yields_nothing sc ign env root children :
  starts_with_dot (Base root) = true -> Base root <> "." -> Base root <> ".gitignore" ->
  Scan sc ign root (DirEntry (Base root) children) = Ok [] /\
  add_dirs env root (DirEntry (Base root) children) = [].
Proof.
  intros Hd H1 H2. split.
  - unfold Scan. cbn. unfold scan_enters_dir. rewrite Hd.
    rewrite (proj2 (String.eqb_neq _ _) H1), (proj2 (String.eqb_neq _ _) H2). reflexivity.
  - cbn. unfold watcher_enters_dir. rewrite Hd, (proj2 (String.eqb_neq _ _) H1).
    destruct (rel_path (w_root env) root); reflexivity.
Qed.

Lemma hidden_root_yields_nothing_witness :
  starts_with_dot (Base "/home/dev/.dotfiles") = true /\
  Scan part_002_New None "/home/dev/.dotfiles" (DirEntry (Base "/home/dev/.dotfiles") [FileEntry "init.lua" (one_def "function_declaration")]) = Ok [] /\
  add_dirs gen_env "/home/dev/.dotfiles" (DirEntry (Base "/home/dev/.dotfiles") []) = [].
Proof.
  split; [vm_compute; reflexivity|].
  split.
  - refine (proj1 (hidden_root_yields_nothing part_002_New None gen_env "/home/dev/.dotfiles" _ _ _ _));
      [vm_compute; reflexivity|vm_compute; discriminate|vm_compute; discriminate].
  - refine (proj2 (hidden_root_yields_nothing part_002_New None gen_env "/home/dev/.dotfiles" _ _ _ _));
      [vm_compute; reflexivity|vm_compute; discriminate|vm_compute; discriminate].
Defined.

Lemma nodes_of_matches_shape idPath path uri ms n :
  In n (nodes_of_matches idPath path uri ms) -> FilePath n = path /\ SymbolURI n = uri.
Proof.
  unfold nodes_of_matches. intros Hn. apply in_flat_map in Hn as [m [_ Hn]].
  destruct (name_capture m); [|destruct Hn]. destruct Hn as [<-|[]]. split; reflexivity.
Qed.


Lemma walk_shape sc ign e :
  forall path rel n, In n (walk sc ign path rel e) ->
    SymbolURI n = "" /\ exists rest, FilePath n = path ++ rest.
Proof.
  induction e as [name content|name children IH] using Entry_ind'; intros path rel n Hn.
  - cbn in Hn. unfold scan_visit_file in Hn.
    destruct (starts_with_dot name && _ && _)%bool; [destruct Hn|].
    destruct (match ign with Some m => m rel | None => false end); [destruct Hn|].
    destruct (negb (has (languages sc) _)); [destruct Hn|].
    destruct (negb (has (queries sc) _)); [destruct Hn|].
    destruct content as [[pr|]|]; try destruct Hn.
    apply nodes_of_matches_shape in Hn as [Hp Hu]. split; [exact Hu|].
    exists "". rewrite Hp. symmetry. apply str_app_nil_r.
  - cbn in Hn. destruct (scan_enters_dir ign name rel); [|destruct Hn].
    induction IH as [|c cs Hc Hcs IHcs]; [destruct Hn|].
    apply in_app_or in Hn as [Hn|Hn]; [|exact (IHcs Hn)].
    destruct (Hc _ _ _ Hn) as [Hu [rest Hr]]. split; [exact Hu|].
    exists (("/" ++ entry_name c) ++ rest). rewrite Hr. unfold join.
    rewrite <- !str_app_assoc. reflexivity.
Qed.

(** Every node [Scan] returns has an empty [SymbolURI] and a file path
    that extends the root path. *)
Lemma Scan_node_shape sc ign root tree ns :
  Scan sc ign root tree = Ok ns ->
  forall n, In n ns -> SymbolURI n = "" /\ exists rest, FilePath n = root ++ rest.
Proof. intros [= <-] n Hn. exact (walk_shape sc ign tree root "." n Hn). Qed.

Lemma Scan_node_shape_witness :
  Scan scanner_go_New None "/w" go_tree = Ok (walk scanner_go_New None "/w" "." go_tree) /\
  walk scanner_go_New None "/w" "." go_tree <> [] /\
  forall n, In n (walk scanner_go_New None "/w" "." go_tree) ->
    SymbolURI n = "" /\ exists rest, FilePath n = "/w" ++ rest.
Proof.
  split; [reflexivity|]. split; [vm_compute; discriminate|].
  apply (Scan_node_shape scanner_go_New None "/w" go_tree). reflexivity.
Defined.



Lemma detect_fold_none (l : list Node) acc :
  (forall n, In n l -> getLang (FilePath n) = "") -> fold_left detect_step l acc = acc.
Proof.
  revert acc. induction l as [|m l IH]; intros acc H; [reflexivity|].
  cbn [fold_left]. unfold detect_step at 2. rewrite (H m (or_introl eq_refl)). cbn.
  apply IH. intros n Hn. apply H. right. exact Hn.
Qed.

(** [Enrich] on a batch in which no file has a known language returns
    no edge and no error, and leaves the world unchanged. *)
Lemma Enrich_no_known_language env ns w :
  (forall n, In n ns -> getLang (FilePath n) = "") ->
  Enrich env ns w = (([], None), w).
Proof.
  intros H. unfold Enrich, detectRequiredLanguages. rewrite detect_fold_none by exact H. reflexivity.
Qed.


Lemma Enrich_no_known_language_witness :
  getLang "/w/README.md" = "" /\
  Enrich no_servers_env [readme_node] empty_world = (([], None), empty_world).
Proof.
  split; [vm_compute; reflexivity|].
  apply Enrich_no_known_language. intros n [<-|[]]. vm_compute. reflexivity.
Defined.

Lemma validate_fold_fst cfg lookPath langs acc :
  (fold_left (validate_step cfg lookPath) langs acc).1 =
  app acc.1 (List.filter (server_missing cfg lookPath) langs).
Proof.
  revert acc. induction langs as [|l langs IH]; intros [miss instrs]; cbn [fold_left List.filter].
  - cbn. by rewrite app_nil_r.
  - rewrite IH. unfold validate_step, server_missing.
    destruct (String.eqb (getLanguageServerCommand cfg l) ""); cbn; [reflexivity|].
    destruct (lookPath (getLanguageServerCommand cfg l)); cbn; [reflexivity|].
    by rewrite <- app_assoc.
Qed.

(** [validateLanguageServers] reports exactly the required languages
    whose server command is set but not found, in order, and succeeds
    when there is none. *)
Lemma validateLanguageServers_missing cfg lookPath requiredLangs :
  (validateLanguageServers cfg lookPath requiredLangs = None <->
   List.filter (server_missing cfg lookPath) requiredLangs = []) /\
  (forall m, validateLanguageServers cfg lookPath requiredLangs = Some m ->
   missing m = List.filter (server_missing cfg lookPath) requiredLangs).
Proof.
  rewrite validate_unfold.
  pose proof (validate_fold_fst cfg lookPath requiredLangs ([], [])) as Hf. cbn in Hf.
  destruct (fold_left (validate_step cfg lookPath) requiredLangs ([], [])) as [miss instrs].
  cbn in Hf. rewrite <- Hf. destruct miss as [|m0 ms]; cbn.
  - split; [tauto|]. discriminate.
  - split; [split; discriminate|]. intros m [= <-]. reflexivity.
Qed.

Lemma resolve_edges_shape (s : Store) (n : Node) (relation : string) (locs : option (list Location)) (e : Edge) :
  In e (resolve_edges s n relation locs) ->
  TargetID e = ID n /\ SourceID e <> ID n /\ Relation e = relation.
Proof.
  destruct locs as [ls|]; cbn; [|intros []].
  assert (Hgen : forall ls acc,
    (forall e, In e acc -> TargetID e = ID n /\ SourceID e <> ID n /\ Relation e = relation) ->
    In e (fold_left (resolve_step s n relation) ls acc) ->
    TargetID e = ID n /\ SourceID e <> ID n /\ Relation e = relation).
  { induction ls0 as [|loc ls0 IH]; intros acc Hacc Hin; cbn [fold_left] in Hin; [exact (Hacc e Hin)|].
    apply (IH (resolve_step s n relation acc loc)); [|exact Hin].
    unfold resolve_step.
    destruct (FindNode s _ _ _) as [[src|]|msg]; [|exact Hacc|exact Hacc].
    destruct (String.eqb (ID src) (ID n)) eqn:Hid; [exact Hacc|].
    intros e' He'. apply in_app_or in He' as [He'|[<-|[]]]; [exact (Hacc e' He')|].
    cbn. apply String.eqb_neq in Hid. auto. }
  apply Hgen. intros _ [].
Qed.


Lemma enrich_node_shape (env : LspEnv) (ns : list Node) (st : WorkState) (n : Node) :
  In n ns ->
  (forall e, In e (collected st) -> enrich_edge_shape ns e) ->
  forall e, In e (collected (enrich_node env st n)) -> enrich_edge_shape ns e.
Proof.
  intros Hn Hcol. unfold enrich_node.
  destruct (negb (has (clients (world st)) (getLang (FilePath n)))); [exact Hcol|].
  set (st' := if has (opened st) (PathToURI (FilePath n)) then Some st else _).
  assert (Hst' : forall st'', st' = Some st'' -> collected st'' = collected st).
  { intros st'' Heq. subst st'.
    destruct (has (opened st) _); [injection Heq as <-; auto|].
    destruct (readFile env (FilePath n)); [|discriminate].
    destruct (didOpen_ok env _); [|discriminate]. injection Heq as <-. reflexivity. }
  destruct st' as [st''|]; [|exact Hcol].
  rewrite <- (Hst' st'' eq_refl) in Hcol.
  destruct (String.eqb (Name n) "" || negb (isDefinitionKind (Kind n)))%bool eqn:Hdef; [exact Hcol|].
  apply orb_false_iff in Hdef as [Hname Hkind]. apply String.eqb_neq in Hname.
  apply negb_false_iff in Hkind.
  cbn. intros e He. apply in_app_or in He as [He|He]; [exact (Hcol e He)|].
  apply in_app_or in He as [He|He].
  - destruct (resolve_edges_shape _ _ _ _ _ He) as (Ht & Hs & Hr).
    exists n. repeat split; auto.
  - destruct (isInterfaceKind (Kind n)) eqn:Hi; [|destruct He].
    destruct (resolve_edges_shape _ _ _ _ _ He) as (Ht & Hs & Hr).
    exists n. repeat split; auto.
Qed.

Lemma enrich_fold_shape (env : LspEnv) (ns : list Node) (l : list Node) (st : WorkState) :
  (forall n, In n l -> In n ns) ->
  (forall e, In e (collected st) -> enrich_edge_shape ns e) ->
  forall e, In e (collected (fold_left (enrich_node env) l st)) -> enrich_edge_shape ns e.
Proof.
  revert st. induction l as [|n l IH]; intros st Hl Hcol; cbn; [exact Hcol|].
  apply IH; [intros m Hm; apply Hl; right; exact Hm|].
  apply enrich_node_shape; [apply Hl; left; reflexivity|exact Hcol].
Qed.

(** Every edge [Enrich] returns points at a named definition node of
    the batch, comes from another node, and is a "references" edge or an
    "implements" edge to an interface. *)
Lemma Enrich_edge_shape env ns w e :
  In e (Enrich env ns w).1.1 ->
  exists m, In m ns /\ TargetID e = ID m /\ SourceID e <> ID m /\
    Name m <> "" /\ isDefinitionKind (Kind m) = true /\
    (Relation e = "references" \/ (Relation e = "implements" /\ isInterfaceKind (Kind m) = true)).
Proof.
  unfold Enrich.
  destruct (detectRequiredLanguages ns) as [|l0 ls]; [intros []|].
  destruct (validateLanguageServers _ _ _); [intros []|].
  destruct (detectAndStartLanguageServers env ns w) as [langServers w1].
  destruct langServers as [|s0 ss]; [intros []|].
  cbn. apply (enrich_fold_shape env ns ns); [auto|intros _ []].
Qed.





Lemma Enrich_edge_shape_witness :
  In ref_edge (Enrich refs_env [helper_node] refs_world).1.1 /\
  exists m, In m [helper_node] /\ TargetID ref_edge = ID m /\ SourceID ref_edge <> ID m /\
    Name m <> "" /\ isDefinitionKind (Kind m) = true /\
    (Relation ref_edge = "references" \/
     (Relation ref_edge = "implements" /\ isInterfaceKind (Kind m) = true)).
Proof.
  assert (H : In ref_edge (Enrich refs_env [helper_node] refs_world).1.1)
    by (vm_compute; left; reflexivity).
  split; [exact H|]. exact (Enrich_edge_shape refs_env [helper_node] refs_world ref_edge H).
Defined.

Lemma Enrich_db_inv (env : LspEnv) (ns : list Node) (w : LspWorld) :
  db (Enrich env ns w).2 = db w /\
  (forall e, In e (Enrich env ns w).1.1 ->
     (exists m, In m ns /\ TargetID e = ID m) /\ is_Some (nodes (db w) !! SourceID e)).
Proof.
  unfold Enrich.
  destruct (detectRequiredLanguages ns) as [|l0 ls]; [cbn; split; [reflexivity|intros _ []]|].
  destruct (validateLanguageServers _ _ _); [cbn; split; [reflexivity|intros _ []]|].
  pose proof (detectAndStart_db env ns w) as Hdb.
  destruct (detectAndStartLanguageServers env ns w) as [langServers w1]. cbn in Hdb.
  destruct langServers as [|s0 ss]; [cbn; split; [exact Hdb|intros _ []]|].
  destruct (enrich_fold_inv env (db w) ns ns (mkWorkState [] w1 []) (fun n H => H) Hdb
              (fun e He => match He with end)) as [H1 H2].
  cbn. split; [exact H1|exact H2].
Qed.

Lemma upsert_all_keeps now ns s k :
  is_Some (nodes s !! k) -> is_Some (nodes (upsert_all now ns s) !! k).
Proof.
  intros Hk. destruct (existsb (fun n => String.eqb (ID n) k) ns) eqn:He.
  - apply existsb_exists in He as [n [Hn Hid]]. apply String.eqb_eq in Hid. subst k.
    destruct (upsert_all_present now ns s n Hn) as (n' & _ & _ & Hl). rewrite Hl. eauto.
  - rewrite upsert_all_other; [exact Hk|]. intros n Hn Hid.
    assert (Hc : existsb (fun n => String.eqb (ID n) k) ns = true)
      by (apply existsb_exists; exists n; split; [exact Hn|by apply String.eqb_eq]).
    congruence.
Qed.

Lemma upsert_edges_stored es s :
  (forall e, In e es -> is_Some (nodes s !! SourceID e) /\ is_Some (nodes s !! TargetID e)) ->
  (upsert_edges es s).1 = None /\ nodes (upsert_edges es s).2 = nodes s.
Proof.
  revert s. induction es as [|e es IH]; intros s H; [split; reflexivity|].
  cbn [upsert_edges].
  destruct (H e (or_introl eq_refl)) as [Hs Ht].
  assert (Hok : exists s', UpsertEdge e s = Ok s' /\ nodes s' = nodes s).
  { unfold UpsertEdge. rewrite (bool_decide_eq_true_2 _ Hs), (bool_decide_eq_true_2 _ Ht).
    rewrite andb_false_r. destruct (bool_decide (e ∈ edges s)); eexists; split; reflexivity. }
  destruct Hok as [s' [-> Hn]]. rewrite <- Hn. apply IH.
  intros e' He'. rewrite Hn. apply H. right. exact He'.
Qed.

(** The [index] tool of [server.go] never removes a stored node,
    stores every scanned node, and never fails while storing edges: it
    reports the counts or an enrichment error. *)
Lemma index_tool_keeps_nodes sc ign cwd tree env now w ns :
  Scan sc ign cwd tree = Ok ns ->
  let '(r, w') := index_tool sc ign cwd tree env now w in
  (forall k, is_Some (nodes (db w) !! k) -> is_Some (nodes (db w') !! k)) /\
  (forall n, In n ns -> is_Some (nodes (db w') !! ID n)) /\
  ((exists k, r = ToolIndexed (length ns) k) \/
   (exists e, r = ToolError ("Enrich failed: " ++ enrich_error_message e))).
Proof.
  intros Hscan. unfold index_tool. rewrite Hscan.
  set (w1 := mkLspWorld (upsert_all now ns (db w)) (clients w) (sent w)).
  destruct (Enrich_db_inv env ns w1) as [Hdb Hes].
  destruct (Enrich env ns w1) as [[es err] w2]. cbn in Hdb, Hes.
  assert (Hkeep : forall k, is_Some (nodes (db w) !! k) -> is_Some (nodes (db w2) !! k)).
  { intros k Hk. rewrite Hdb. by apply upsert_all_keeps. }
  assert (Hns : forall n, In n ns -> is_Some (nodes (db w2) !! ID n)).
  { intros n Hn. rewrite Hdb. destruct (upsert_all_present now ns (db w) n Hn) as (n' & _ & _ & Hl).
    cbn. rewrite Hl. eauto. }
  destruct err as [e|].
  - split; [exact Hkeep|]. split; [exact Hns|]. right. exists e. reflexivity.
  - destruct (upsert_edges_stored es (db w2)) as [Hr Hn].
    { intros e He. destruct (Hes e He) as [[m [Hm Ht]] Hs]. rewrite Hdb. split; [exact Hs|].
      rewrite Ht. rewrite <- Hdb. exact (Hns m Hm). }
    destruct (upsert_edges es (db w2)) as [r s']. cbn in Hr, Hn. subst r. cbn.
    rewrite Hn. split; [exact Hkeep|]. split; [exact Hns|]. left. eauto.
Qed.

Lemma index_tool_keeps_nodes_witness :
  Scan scanner_go_New None "/w" go_tree = Ok (walk scanner_go_New None "/w" "." go_tree) /\
  let '(r, w') := index_tool scanner_go_New None "/w" go_tree refs_env 0 refs_world in
  (forall k, is_Some (nodes (db refs_world) !! k) -> is_Some (nodes (db w') !! k)) /\
  (forall n, In n (walk scanner_go_New None "/w" "." go_tree) -> is_Some (nodes (db w') !! ID n)) /\
  ((exists k, r = ToolIndexed (length (walk scanner_go_New None "/w" "." go_tree)) k) \/
   (exists e, r = ToolError ("Enrich failed: " ++ enrich_error_message e))).
Proof.
  split; [reflexivity|].
  apply (index_tool_keeps_nodes scanner_go_New None "/w" go_tree refs_env 0 refs_world). reflexivity.
Defined.
